(** * srlopt: the function-optimization environment and its baselines

    A shallow embedding of [sarlopt/environments/tf_function_env_v2.py]
    (class [TFFunctionEnvV2]) and of the baseline optimizers [GD] and [NAG]
    of [experiments/evaluation/utils.py].

    Tensors of dtype float32 are lists over a scalar type with the
    comparison and arithmetic the code uses, NaN included (binary32 is one
    instance, [Float32]); int32 variables are [Z] with the
    wrap-around of [assign_add] written out; the [tf.random.Generator] is an
    explicit stream state threaded through every draw; Python exceptions are
    [None] or the [Raised] outcome, which carries the state that the
    exception leaves behind. *)

From Stdlib Require Import String QArith Qround SpecFloat.
From Stdlib Require Import ZArith List Bool Lia.
Import ListNotations.
Local Open Scope Z_scope.

Set Implicit Arguments.

(** ** Scalars: the elements of a float32 tensor *)

(** [s_ltb] is [<] ([tf.math.less], Python's [<] on scalars) and [s_isnan]
    tells the NaNs.  The laws are those of [<] on floats: it is irreflexive
    and transitive, it is false as soon as one side is a NaN, and two values
    that are both not below a third one that is not a NaN are ordered as [<]
    orders the reals (the two zeros are equivalent without being equal).
    [s_lit] is a literal such as [1e-2] converted to the dtype. *)
Class Scalar (T : Type) : Type := {
  s_lit : Q -> T;
  s_add : T -> T -> T;
  s_sub : T -> T -> T;
  s_mul : T -> T -> T;
  s_neg : T -> T;
  s_ltb : T -> T -> bool;
  s_isnan : T -> bool;
  s_ltb_irrefl : forall x, s_ltb x x = false;
  s_ltb_trans : forall x y z,
      s_ltb x y = true -> s_ltb y z = true -> s_ltb x z = true;
  s_ltb_negtrans : forall x y z,
      s_isnan y = false ->
      s_ltb x y = false -> s_ltb y z = false -> s_ltb x z = false;
  s_ltb_nan_l : forall x y, s_isnan x = true -> s_ltb x y = false;
  s_ltb_nan_r : forall x y, s_isnan y = true -> s_ltb x y = false
}.

(** [tf.random.Algorithm] *)
Inductive Algorithm : Type := PHILOX | THREEFRY.

(** ** The random stream

    [tf.random.Generator]: [from_seed] builds the stream, every [uniform]
    call returns its draw together with the advanced stream.  [uniform g n lo
    hi] is the float32 draw of shape [(1, n)]; [uniform_int g lo hi] the
    int32 draw of shape [()].  The laws are the range contracts of the
    library. *)
Class Generator (T : Type) {ST : Scalar T} (G : Type) : Type := {
  from_seed : Z -> Algorithm -> G;
  uniform : G -> nat -> T -> T -> list T * G;
  uniform_int : G -> Z -> Z -> Z * G;
  uniform_length : forall g n lo hi, length (fst (uniform g n lo hi)) = n;
  uniform_range : forall g n lo hi,
      s_ltb hi lo = false ->
      Forall (fun x => s_ltb x lo = false /\ s_ltb hi x = false)
             (fst (uniform g n lo hi));
  uniform_int_range : forall g lo hi,
      lo < hi -> lo <= fst (uniform_int g lo hi) < hi
}.

(** [ts.StepType] *)
Inductive StepType : Type := FIRST | MID | LAST.

Definition StepType_eqb (a b : StepType) : bool :=
  match a, b with
  | FIRST, FIRST | MID, MID | LAST, LAST => true
  | _, _ => false
  end.

(** ** int32 *)

Definition wrap32 (z : Z) : Z := (z + 2 ^ 31) mod 2 ^ 32 - 2 ^ 31.

Definition int32_range (z : Z) : bool := (- 2 ^ 31 <=? z) && (z <? 2 ^ 31).

(** [tf.math.less_equal] and [tf.math.greater_equal] on int32 scalars *)
Definition less_equal (a b : Z) : bool := a <=? b.
Definition greater_equal (a b : Z) : bool := b <=? a.

Section Model.

Context {T : Type} {ST : Scalar T} {G : Type} {GT : @Generator T ST G}.

(** ** Tensor operations *)

(** The negation of [y < x]: it is [x <= y] when neither side is a NaN,
    and holds as soon as one side is a NaN. *)
Definition s_leb (x y : T) : bool := negb (s_ltb y x).

(** [tf.math.minimum] and [tf.math.maximum] on one element. *)
Definition minimum (x y : T) : T := if s_ltb y x then y else x.
Definition maximum (x y : T) : T := if s_ltb x y then y else x.

(** [tf.clip_by_value t lo hi] with scalar bounds:
    [maximum (minimum t hi) lo], element by element. *)
Definition clip_by_value (t : list T) (lo hi : T) : list T :=
  map (fun x => maximum (minimum x hi) lo) t.

(** Element-wise operation on two tensors of one shape. *)
Fixpoint map2 (op : T -> T -> T) (x y : list T) : list T :=
  match x, y with
  | a :: x', b :: y' => op a b :: map2 op x' y'
  | _, _ => []
  end.

(** [x + y] where [x] has shape [(1, n)] and [y] is a vector: the shapes
    must agree or one of the two lengths must be 1 (broadcasting);
    otherwise the addition raises. *)
Definition tensor_add (x y : list T) : option (list T) :=
  if (length x =? length y)%nat then Some (map2 s_add x y)
  else match x, y with
       | _, [b] => Some (map (fun a => s_add a b) x)
       | [a], _ => Some (map (fun b => s_add a b) y)
       | _, _ => None
       end.

(** [tf.math.negative] on a scalar. *)
Definition negative (x : T) : T := s_neg x.

(** [tf.multiply t c] with a scalar [c]. *)
Definition multiply (t : list T) (c : T) : list T :=
  map (fun x => s_mul x c) t.

(** ** The objective-function interface ([tff.TensorflowFunction]) *)

Record Domain : Type := mkDomain {
  d_min : T;   (* domain.min *)
  d_max : T    (* domain.max *)
}.

Record TensorflowFunction : Type := mkFunction {
  name : string;
  domain : Domain;
  call : list T -> T;              (* function(x) *)
  grads_at : list T -> list T * T  (* function.grads_at(x) = (grads, y) *)
}.

(** [tf.switch_case branch_index branch_fns] without a [default]: an index
    out of range selects the last branch; with no branch at all it raises. *)
Definition switch_case (branch_index : Z) (branches : list (unit -> T))
  : option T :=
  match branches with
  | [] => None
  | b :: _ =>
      if (0 <=? branch_index) && (branch_index <? Z.of_nat (length branches))
      then Some (nth (Z.to_nat branch_index) branches b tt)
      else Some (last branches b tt)
  end.

(** ** Environment *)

Record TimeStep : Type := mkTimeStep {
  step_type : StepType;
  reward : T;
  discount : T;
  observation : list T
}.

(** The attributes of a [TFFunctionEnvV2] object.  [state], [fn_index],
    [steps_taken], [episode_ended] are its variables, [rng] its generator;
    the others are set once by the constructor. *)
Record Env : Type := mkEnv {
  functions : list TensorflowFunction;
  fn_index : Z;
  domain_min : T;
  domain_max : T;
  dims : Z;
  n_functions : Z;
  bounded_actions_spec : bool;
  seed : Z;
  alg : Algorithm;
  rng : G;
  episode_ended : bool;
  steps_taken : Z;
  duration : Z;
  state : list T
}.

Definition set_fn_index (e : Env) (v : Z) : Env :=
  mkEnv (functions e) v (domain_min e) (domain_max e) (dims e)
        (n_functions e) (bounded_actions_spec e) (seed e) (alg e) (rng e)
        (episode_ended e) (steps_taken e) (duration e) (state e).

Definition set_rng (e : Env) (v : G) : Env :=
  mkEnv (functions e) (fn_index e) (domain_min e) (domain_max e) (dims e)
        (n_functions e) (bounded_actions_spec e) (seed e) (alg e) v
        (episode_ended e) (steps_taken e) (duration e) (state e).

Definition set_episode_ended (e : Env) (v : bool) : Env :=
  mkEnv (functions e) (fn_index e) (domain_min e) (domain_max e) (dims e)
        (n_functions e) (bounded_actions_spec e) (seed e) (alg e) (rng e)
        v (steps_taken e) (duration e) (state e).

Definition set_steps_taken (e : Env) (v : Z) : Env :=
  mkEnv (functions e) (fn_index e) (domain_min e) (domain_max e) (dims e)
        (n_functions e) (bounded_actions_spec e) (seed e) (alg e) (rng e)
        (episode_ended e) v (duration e) (state e).

Definition set_state (e : Env) (v : list T) : Env :=
  mkEnv (functions e) (fn_index e) (domain_min e) (domain_max e) (dims e)
        (n_functions e) (bounded_actions_spec e) (seed e) (alg e) (rng e)
        (episode_ended e) (steps_taken e) (duration e) v.

(** What a call on the environment does: it returns a time step, or raises;
    either way the object is left in the state given. *)
Inductive outcome : Type :=
| Returned (ts : TimeStep) (e : Env)
| Raised (e : Env).

Definition env_of (o : outcome) : Env :=
  match o with Returned _ e => e | Raised e => e end.

Definition time_step_of (o : outcome) : option TimeStep :=
  match o with Returned ts _ => Some ts | Raised _ => None end.

(** [TFFunctionEnvV2.__init__].  It raises on [functions[0]] when the
    catalog is empty, in the shape [(dims,)] of the specs when [dims] is
    negative, and in the int32 constant when [duration] does not fit. *)
Definition init (fns : list TensorflowFunction) (dims0 seed0 : Z)
           (duration0 : Z) (bounded : bool) (alg0 : Algorithm) : option Env :=
  match fns with
  | [] => None
  | f0 :: _ =>
      let domain_min0 := d_min (domain f0) in
      let domain_max0 := d_max (domain f0) in
      let n := Z.of_nat (length fns) in
      if dims0 <? 0 then None
      else if negb (int32_range duration0) then None
      else
        let rng0 := from_seed seed0 alg0 in
        let '(state0, rng1) :=
          uniform rng0 (Z.to_nat dims0) domain_min0 domain_max0 in
        let '(index0, rng2) := uniform_int rng1 0 n in
        Some (mkEnv fns index0 domain_min0 domain_max0 dims0 n bounded
                    seed0 alg0 rng2 false 0 duration0 state0)
  end.

(** [self._fn_evaluator(x)]: one thunk per catalog function. *)
Definition fn_evaluator (e : Env) (x : list T) : list (unit -> T) :=
  map (fun f => fun _ : unit => call f x) (functions e).

(** [_current_time_step].  [tf.case] with [exclusive=True] raises when both
    predicates hold. *)
Definition _current_time_step (e : Env) : option TimeStep :=
  let state0 := state e in
  let fn_index0 := fn_index e in
  let branches := fn_evaluator e state0 in
  let first := Some (FIRST, s_lit 0%Q) in
  let mid :=
    option_map (fun v => (MID, negative v)) (switch_case fn_index0 branches) in
  let last :=
    option_map (fun v => (LAST, negative v)) (switch_case fn_index0 branches) in
  let discount0 := s_lit 1%Q in
  let p_first := less_equal (steps_taken e) 0 in
  let p_last := episode_ended e in
  let chosen :=
    if p_first && p_last then None
    else if p_first then first
    else if p_last then last
    else mid in
  option_map (fun '(st, r) => mkTimeStep st r discount0 state0) chosen.

Definition current_time_step (e : Env) : option TimeStep :=
  _current_time_step e.

(** [_reset] *)
Definition _reset (e : Env) : outcome :=
  let e := set_episode_ended e false in
  let e := set_steps_taken e 0 in
  let '(s, g) :=
    uniform (rng e) (Z.to_nat (dims e)) (domain_min e) (domain_max e) in
  let e := set_state (set_rng e g) s in
  let '(i, g) := uniform_int (rng e) 0 (n_functions e) in
  let e := set_fn_index (set_rng e g) i in
  match current_time_step e with
  | Some ts => Returned ts e
  | None => Raised e
  end.

Definition reset (e : Env) : outcome := _reset e.

(** [self._state.assign(v)]: the shape of [v] must be that of the variable. *)
Definition assign_state (e : Env) (v : list T) : option Env :=
  if (length v =? length (state e))%nat then Some (set_state e v) else None.

(** [_step] *)
Definition _step (e : Env) (action : list T) : outcome :=
  let take_step :=
    match tensor_add (state e) action with
    | None => Raised e
    | Some sum =>
        let new_state :=
          clip_by_value sum (domain_min e) (domain_max e) in
        match assign_state e new_state with
        | None => Raised e
        | Some e =>
            let e := set_steps_taken e (wrap32 (steps_taken e + 1)) in
            let e :=
              if greater_equal (steps_taken e) (duration e)
              then set_episode_ended e true
              else e in
            match current_time_step e with
            | Some ts => Returned ts e
            | None => Raised e
            end
        end
    end in
  let reset_env := reset e in
  if episode_ended e then reset_env else take_step.

Definition step (e : Env) (action : list T) : outcome := _step e action.

(** ** Calls and traces *)

(** The calls of the driver-facing contract. *)
Inductive call_t : Type :=
| CReset
| CStep (action : list T)
| CCurrent.

Definition do_call (e : Env) (c : call_t) : outcome :=
  match c with
  | CReset => reset e
  | CStep a => step e a
  | CCurrent =>
      match current_time_step e with
      | Some ts => Returned ts e
      | None => Raised e
      end
  end.

(** The results of a sequence of calls on one object, each call starting in
    the state the previous one left. *)
Fixpoint run (e : Env) (cs : list call_t) : list (option TimeStep) :=
  match cs with
  | [] => []
  | c :: cs' =>
      let o := do_call e c in time_step_of o :: run (env_of o) cs'
  end.

(** The state after a sequence of calls. *)
Definition after (e : Env) (cs : list call_t) : Env :=
  fold_left (fun e c => env_of (do_call e c)) cs e.

(** ** Baseline optimizers ([experiments/evaluation/utils.py]) *)

(** [dict.get(key, default)] on a dict literal. *)
Fixpoint dict_get {V : Type} (d : list (string * V)) (key : string)
         (default : V) : V :=
  match d with
  | [] => default
  | (k, v) :: d' => if String.eqb k key then v else dict_get d' key default
  end.

Definition gd_lrs : list (string * Q) :=
  [("F1"%string, 1 # 10); ("F2"%string, 1 # 100); ("F3"%string, 1 # 10000);
   ("F4"%string, 1 # 10000); ("F5"%string, 1 # 100); ("F6"%string, 1 # 10);
   ("F7"%string, 1 # 10); ("F8"%string, 1 # 10000)]%Q.

Definition nag_params : list (string * (Q * Q)) :=
  [("F1"%string, (1 # 10, 5 # 10)); ("F2"%string, (1 # 1000, 5 # 10));
   ("F3"%string, (1 # 10000, 9 # 10)); ("F4"%string, (1 # 10000, 9 # 10));
   ("F5"%string, (1 # 10, 8 # 10)); ("F6"%string, (1 # 1000, 9 # 10));
   ("F7"%string, (1 # 10, 9 # 10)); ("F8"%string, (1 # 10000, 9 # 10))]%Q.

(** Python's [min(a, b)]: [b] when [b < a], else [a]. *)
Definition py_min (a b : T) : T := if s_ltb b a then b else a.

(** [range(n)] *)
Definition range (n : Z) : list Z := map Z.of_nat (seq 0 (Z.to_nat n)).

(** [c * t] with a Python float [c]. *)
Definition scale (c : T) (t : list T) : list T := map (fun x => s_mul c x) t.

(** [tf.zeros(shape=pos.shape)] *)
Definition zeros (pos : list T) : list T := map (fun _ => s_lit 0%Q) pos.

(** The variables of the loop of [GD].  [best_solutions[-1]] is
    [last best_solutions _]: the list is never empty. *)
Record GD_vars : Type := mkGD {
  gd_pos : list T;
  gd_best_solutions : list T;
  gd_best_it : Z
}.

(** One iteration of the loop of [GD].  The gradient has the shape of the
    position, so that [-] is element-wise. *)
Definition GD_body (function : TensorflowFunction) (lr : T)
           (v : GD_vars) (t : Z) : GD_vars :=
  let domain0 := domain function in
  let '(grads, _) := grads_at function (gd_pos v) in
  let pos :=
    clip_by_value (map2 s_sub (gd_pos v) (multiply grads lr))
                  (d_min domain0) (d_max domain0) in
  let y := call function pos in
  let best_it :=
    if s_ltb y (last (gd_best_solutions v) y) then t else gd_best_it v in
  mkGD pos
       (gd_best_solutions v ++ [py_min y (last (gd_best_solutions v) y)])
       best_it.

Definition GD (function : TensorflowFunction) (pos : list T) (steps : Z)
  : list T * Z :=
  let lr := s_lit (dict_get gd_lrs (name function) (1 # 100)%Q) in
  let v0 := mkGD pos [call function pos] 0 in
  let v := fold_left (GD_body function lr) (range steps) v0 in
  (gd_best_solutions v, gd_best_it v).

Record NAG_vars : Type := mkNAG {
  nag_pos : list T;
  nag_velocity : list T;
  nag_best_solutions : list T;
  nag_best_it : Z
}.

(** One iteration of the loop of [NAG]. *)
Definition NAG_body (function : TensorflowFunction) (lr momentum : T)
           (v : NAG_vars) (t : Z) : NAG_vars :=
  let domain0 := domain function in
  let projected :=
    clip_by_value (map2 s_add (nag_pos v) (scale momentum (nag_velocity v)))
                  (d_min domain0) (d_max domain0) in
  let '(grads, _) := grads_at function projected in
  let velocity :=
    map2 s_sub (scale momentum (nag_velocity v)) (multiply grads lr) in
  let pos :=
    clip_by_value (map2 s_add (nag_pos v) velocity)
                  (d_min domain0) (d_max domain0) in
  let current_pos := call function pos in
  let best_it :=
    if s_ltb current_pos (last (nag_best_solutions v) current_pos)
    then t else nag_best_it v in
  mkNAG pos velocity
        (nag_best_solutions v
           ++ [py_min current_pos (last (nag_best_solutions v) current_pos)])
        best_it.

Definition NAG (function : TensorflowFunction) (pos : list T) (steps : Z)
  : list T * Z :=
  let '(lr, momentum) :=
    dict_get nag_params (name function) (1 # 100, 8 # 10)%Q in
  let v0 := mkNAG pos (zeros pos) [call function pos] 0 in
  let v :=
    fold_left (NAG_body function (s_lit lr) (s_lit momentum)) (range steps) v0
  in
  (nag_best_solutions v, nag_best_it v).

End Model.

(** ** A concrete model: fixed-point scalars and a counter-based stream

    Scalars are integers counting thousandths; the product rounds down and
    there is no NaN.  The model shows that the two interfaces are inhabited,
    and it is where the development evaluates the environment on concrete
    inputs. *)

Module ZModel.

Definition z_lit (q : Q) : Z := Qfloor (q * 1000).

Definition z_mul (x y : Z) : Z := x * y / 1000.

Lemma ltb_irrefl (x : Z) : (x <? x) = false.
Proof. apply Z.ltb_irrefl. Qed.

Lemma ltb_trans (x y z : Z) :
  (x <? y) = true -> (y <? z) = true -> (x <? z) = true.
Proof. rewrite !Z.ltb_lt. lia. Qed.

Lemma ltb_negtrans (x y z : Z) :
  false = false ->
  (x <? y) = false -> (y <? z) = false -> (x <? z) = false.
Proof. intros _. rewrite !Z.ltb_ge. lia. Qed.

Lemma ltb_no_nan_l (x y : Z) : false = true -> (x <? y) = false.
Proof. discriminate. Qed.

Lemma ltb_no_nan_r (x y : Z) : false = true -> (x <? y) = false.
Proof. discriminate. Qed.

#[export] Instance scalar : Scalar Z := {|
  s_lit := z_lit;
  s_add := Z.add;
  s_sub := Z.sub;
  s_mul := z_mul;
  s_neg := Z.opp;
  s_ltb := Z.ltb;
  s_isnan := fun _ => false;
  s_ltb_irrefl := ltb_irrefl;
  s_ltb_trans := ltb_trans;
  s_ltb_negtrans := ltb_negtrans;
  s_ltb_nan_l := ltb_no_nan_l;
  s_ltb_nan_r := ltb_no_nan_r
|}.

(** The stream is a key and a counter; the [i]-th block is a fixed mixing
    of the two. *)
Definition stream : Type := (Z * Z)%type.

Definition block (g : stream) (i : Z) : Z :=
  ((fst g + 1) * 1103515245 + (snd g + i) * 12345 + 7) mod 2 ^ 31.

Definition z_from_seed (seed : Z) (_ : Algorithm) : stream := (seed, 0).

Definition z_uniform (g : stream) (n : nat) (lo hi : Z) : list Z * stream :=
  (map (fun i => lo + block g (Z.of_nat i) mod (hi - lo + 1)) (seq 0 n),
   (fst g, snd g + Z.of_nat n)).

Definition z_uniform_int (g : stream) (lo hi : Z) : Z * stream :=
  (lo + block g 0 mod (hi - lo), (fst g, snd g + 1)).

Lemma z_uniform_length g n lo hi : length (fst (z_uniform g n lo hi)) = n.
Proof. cbn [z_uniform fst]. now rewrite length_map, length_seq. Qed.

Lemma z_uniform_range g n lo hi :
  (hi <? lo) = false ->
  Forall (fun x => (x <? lo) = false /\ (hi <? x) = false)
         (fst (z_uniform g n lo hi)).
Proof.
  intros Hle. apply Z.ltb_ge in Hle. cbn [z_uniform fst].
  apply Forall_forall. intros x Hx. apply in_map_iff in Hx.
  destruct Hx as [i [<- _]].
  pose proof (Z.mod_pos_bound (block g (Z.of_nat i)) (hi - lo + 1)).
  rewrite !Z.ltb_ge. lia.
Qed.

Lemma z_uniform_int_range g lo hi :
  lo < hi -> lo <= fst (z_uniform_int g lo hi) < hi.
Proof.
  intros Hlt. cbn [z_uniform_int fst].
  pose proof (Z.mod_pos_bound (block g 0) (hi - lo)). lia.
Qed.

#[export] Instance generator : Generator stream := {|
  from_seed := z_from_seed;
  uniform := z_uniform;
  uniform_int := z_uniform_int;
  uniform_length := z_uniform_length;
  uniform_range := z_uniform_range;
  uniform_int_range := z_uniform_int_range
|}.

(** Two objective functions with their gradients: the sphere function on
    [[-5, 5]], and the sum of absolute values on [[-3, 3]], which is named
    after the first entry of the parameter tables of [GD] and [NAG]. *)
Definition sphere : TensorflowFunction :=
  mkFunction "Sphere" (mkDomain (-5000) 5000)
             (fun x => fold_right (fun a acc => z_mul a a + acc) 0 x)
             (fun x => (map (fun a => 2 * a) x,
                        fold_right (fun a acc => z_mul a a + acc) 0 x)).

Definition absolute : TensorflowFunction :=
  mkFunction "F1" (mkDomain (-3000) 3000)
             (fun x => fold_right (fun a acc => Z.abs a + acc) 0 x)
             (fun x => (map (fun a => 1000 * Z.sgn a) x,
                        fold_right (fun a acc => Z.abs a + acc) 0 x)).

End ZModel.

(** ** A second concrete model: binary32 floats

    The scalars of the code itself: IEEE binary32 as the specification
    floats of the Standard Library at precision 24, with their NaN.  It is
    where the development evaluates the baselines on concrete inputs. *)

Module Float32.


Definition prec : Z := 24.
Definition emax : Z := 128.

(** The float nearest to an integer, and to a rational literal. *)
Definition of_Z (z : Z) : spec_float := binary_normalize prec emax z 0 false.

Definition f_lit (q : Q) : spec_float :=
  SFdiv prec emax (of_Z (Qnum q)) (of_Z (Zpos (Qden q))).

Definition f_isnan (x : spec_float) : bool :=
  match x with S754_nan => true | _ => false end.

(** A key that orders the floats that are not NaN as [<] does. *)
Definition key (x : spec_float) : Z * Z * Z :=
  match x with
  | S754_nan => (0, 0, 0)
  | S754_zero _ => (0, 0, 0)
  | S754_infinity true => (-2, 0, 0)
  | S754_infinity false => (2, 0, 0)
  | S754_finite true m e => (-1, - e, - Zpos m)
  | S754_finite false m e => (1, e, Zpos m)
  end.

Definition lex_lt (a b : Z * Z * Z) : Prop :=
  fst (fst a) < fst (fst b) \/
  (fst (fst a) = fst (fst b) /\
   (snd (fst a) < snd (fst b) \/
    (snd (fst a) = snd (fst b) /\ snd a < snd b))).

Lemma SFltb_key (x y : spec_float) :
  f_isnan x = false -> f_isnan y = false ->
  (SFltb x y = true <-> lex_lt (key x) (key y)).
Proof.
  unfold SFltb, lex_lt.
  destruct x as [ [ | ] | [ | ] | | [ | ] mx ex ];
    destruct y as [ [ | ] | [ | ] | | [ | ] my ey ];
    intros Hx Hy; try discriminate;
    cbn [SFcompare key fst snd];
    try (split; [ discriminate | lia ]);
    try (split; [ intros _; lia | reflexivity ]).
  - change (Pos.compare_cont Eq mx my) with (Pos.compare mx my).
    destruct (Z.compare_spec ex ey); [ destruct (Pos.compare_spec mx my) | | ];
      cbn; split; intros; try discriminate; try lia; reflexivity.
  - change (Pos.compare_cont Eq mx my) with (Pos.compare mx my).
    destruct (Z.compare_spec ex ey); [ destruct (Pos.compare_spec mx my) | | ];
      cbn; split; intros; try discriminate; try lia; reflexivity.
Qed.

Lemma SFltb_nan_l (x y : spec_float) : f_isnan x = true -> SFltb x y = false.
Proof. destruct x; try discriminate. reflexivity. Qed.

Lemma SFltb_nan_r (x y : spec_float) : f_isnan y = true -> SFltb x y = false.
Proof. destruct y; try discriminate. now destruct x. Qed.

Lemma SFltb_true_no_nan (x y : spec_float) :
  SFltb x y = true -> f_isnan x = false /\ f_isnan y = false.
Proof.
  intros H. split.
  - destruct (f_isnan x) eqn:E; [ | reflexivity ].
    now rewrite (SFltb_nan_l x y E) in H.
  - destruct (f_isnan y) eqn:E; [ | reflexivity ].
    now rewrite (SFltb_nan_r x y E) in H.
Qed.

Lemma SFltb_irrefl (x : spec_float) : SFltb x x = false.
Proof.
  destruct (f_isnan x) eqn:E; [ now apply SFltb_nan_l | ].
  destruct (SFltb x x) eqn:H; [ | reflexivity ].
  apply (SFltb_key x x E E) in H. unfold lex_lt in H. lia.
Qed.

Lemma SFltb_trans (x y z : spec_float) :
  SFltb x y = true -> SFltb y z = true -> SFltb x z = true.
Proof.
  intros Hxy Hyz.
  destruct (SFltb_true_no_nan _ _ Hxy) as [Hx Hy].
  destruct (SFltb_true_no_nan _ _ Hyz) as [_ Hz].
  apply (SFltb_key x y Hx Hy) in Hxy. apply (SFltb_key y z Hy Hz) in Hyz.
  apply (SFltb_key x z Hx Hz). unfold lex_lt in *. lia.
Qed.

Lemma SFltb_negtrans (x y z : spec_float) :
  f_isnan y = false ->
  SFltb x y = false -> SFltb y z = false -> SFltb x z = false.
Proof.
  intros Hy Hxy Hyz.
  destruct (f_isnan x) eqn:Hx; [ now apply SFltb_nan_l | ].
  destruct (f_isnan z) eqn:Hz; [ now apply SFltb_nan_r | ].
  destruct (SFltb x z) eqn:Hxz; [ | reflexivity ].
  apply (SFltb_key x z Hx Hz) in Hxz.
  assert (Hxy' : ~ lex_lt (key x) (key y)).
  { intros H. apply (SFltb_key x y Hx Hy) in H. congruence. }
  assert (Hyz' : ~ lex_lt (key y) (key z)).
  { intros H. apply (SFltb_key y z Hy Hz) in H. congruence. }
  unfold lex_lt in *. lia.
Qed.

#[export] Instance float_scalar : Scalar spec_float := {|
  s_lit := f_lit;
  s_add := SFadd prec emax;
  s_sub := SFsub prec emax;
  s_mul := SFmul prec emax;
  s_neg := SFopp;
  s_ltb := SFltb;
  s_isnan := f_isnan;
  s_ltb_irrefl := SFltb_irrefl;
  s_ltb_trans := SFltb_trans;
  s_ltb_negtrans := SFltb_negtrans;
  s_ltb_nan_l := SFltb_nan_l;
  s_ltb_nan_r := SFltb_nan_r
|}.

(** Objective functions of one variable per coordinate on [[-10, 10]].
    Two are named after the first entry of the parameter tables of [GD] and
    [NAG]: [15 x^2], and the same with a singular term that is kept out of
    the gradient, [15 x^2 + tf.stop_gradient(0 / (x + 2))]: its value at [-2]
    is a NaN and its gradient is [30 x] everywhere.  The third, [x^2],
    has a name that the tables do not list. *)
Definition parabola : TensorflowFunction :=
  mkFunction "F1" (mkDomain (of_Z (-10)) (of_Z 10))
             (fun x =>
                fold_right
                  (fun a acc =>
                     SFadd prec emax
                           (SFmul prec emax (of_Z 15) (SFmul prec emax a a))
                           acc)
                  (of_Z 0) x)
             (fun x =>
                (map (fun a => SFmul prec emax (of_Z 30) a) x,
                 fold_right
                   (fun a acc =>
                      SFadd prec emax
                            (SFmul prec emax (of_Z 15) (SFmul prec emax a a))
                            acc)
                   (of_Z 0) x)).

Definition punctured (a : spec_float) : spec_float :=
  SFadd prec emax
        (SFmul prec emax (of_Z 15) (SFmul prec emax a a))
        (SFdiv prec emax (of_Z 0) (SFadd prec emax a (of_Z 2))).

Definition punctured_parabola : TensorflowFunction :=
  mkFunction "F1" (mkDomain (of_Z (-10)) (of_Z 10))
             (fun x =>
                fold_right (fun a acc => SFadd prec emax (punctured a) acc)
                           (of_Z 0) x)
             (fun x =>
                (map (fun a => SFmul prec emax (of_Z 30) a) x,
                 fold_right (fun a acc => SFadd prec emax (punctured a) acc)
                            (of_Z 0) x)).

Definition bowl : TensorflowFunction :=
  mkFunction "Bowl" (mkDomain (of_Z (-10)) (of_Z 10))
             (fun x =>
                fold_right
                  (fun a acc => SFadd prec emax (SFmul prec emax a a) acc)
                  (of_Z 0) x)
             (fun x =>
                (map (fun a => SFmul prec emax (of_Z 2) a) x,
                 fold_right
                   (fun a acc => SFadd prec emax (SFmul prec emax a a) acc)
                   (of_Z 0) x)).

End Float32.

(** * Properties *)

Section Properties.

Context {T : Type} {ST : Scalar T} {G : Type} {GT : @Generator T ST G}.

Implicit Types (e : @Env T G) (ts : @TimeStep T) (f : @TensorflowFunction T).

(** ** The order on scalars *)

Lemma s_leb_refl (x : T) : s_leb x x = true.
Proof. unfold s_leb. now rewrite s_ltb_irrefl. Qed.

Lemma s_leb_trans (x y z : T) :
  s_isnan y = false ->
  s_leb x y = true -> s_leb y z = true -> s_leb x z = true.
Proof.
  unfold s_leb. rewrite !negb_true_iff. intros Hy Hxy Hyz.
  now apply s_ltb_negtrans with y.
Qed.

Lemma s_ltb_asym (x y : T) : s_ltb x y = true -> s_ltb y x = false.
Proof.
  intros Hxy. destruct (s_ltb y x) eqn:Hyx; [ | reflexivity ].
  pose proof (s_ltb_trans _ _ _ Hxy Hyx) as Hxx.
  now rewrite s_ltb_irrefl in Hxx.
Qed.

Lemma s_ltb_leb (x y : T) : s_ltb x y = true -> s_leb x y = true.
Proof. intros Hxy. unfold s_leb. now rewrite (s_ltb_asym _ _ Hxy). Qed.

Lemma s_leb_total (x y : T) : s_leb x y = false -> s_leb y x = true.
Proof.
  unfold s_leb. rewrite negb_false_iff. intros Hyx.
  now rewrite (s_ltb_asym _ _ Hyx).
Qed.

(** ** Clipping *)

Definition within (lo hi x : T) : Prop :=
  s_leb lo x = true /\ s_leb x hi = true.

Lemma clip_within (lo hi x : T) :
  s_leb lo hi = true -> within lo hi (maximum (minimum x hi) lo).
Proof.
  intros Hwf. unfold within, maximum, minimum.
  destruct (s_ltb hi x) eqn:Hx.
  - destruct (s_ltb hi lo) eqn:Hlo.
    + unfold s_leb in Hwf. now rewrite Hlo in Hwf.
    + split; [ unfold s_leb; now rewrite Hlo | apply s_leb_refl ].
  - destruct (s_ltb x lo) eqn:Hlo.
    + split; [ apply s_leb_refl | assumption ].
    + split; unfold s_leb; [ now rewrite Hlo | now rewrite Hx ].
Qed.

Lemma clip_by_value_within (t : list T) (lo hi : T) :
  s_leb lo hi = true -> Forall (within lo hi) (clip_by_value t lo hi).
Proof.
  intros Hwf. unfold clip_by_value. apply Forall_forall. intros y Hy.
  apply in_map_iff in Hy. destruct Hy as [x [<- _]].
  now apply clip_within.
Qed.

Lemma length_clip_by_value (t : list T) (lo hi : T) :
  length (clip_by_value t lo hi) = length t.
Proof. unfold clip_by_value. apply length_map. Qed.

Lemma length_map2 (op : T -> T -> T) (x y : list T) :
  length x = length y -> length (map2 op x y) = length x.
Proof.
  revert y. induction x as [ | a x IH ]; intros [ | b y ] Hlen;
    cbn in *; try discriminate; [ reflexivity | ].
  f_equal. apply IH. now injection Hlen.
Qed.

(** ** Shapes of the sum in [_step] *)

Lemma tensor_add_same_shape (x y : list T) :
  length y = length x -> tensor_add x y = Some (map2 s_add x y).
Proof.
  intros Hlen. unfold tensor_add.
  now rewrite Hlen, Nat.eqb_refl.
Qed.

Lemma tensor_add_length (x y s : list T) :
  tensor_add x y = Some s ->
  length s = length x \/ (length x = 1%nat /\ length s = length y).
Proof.
  unfold tensor_add. destruct (length x =? length y)%nat eqn:Hlen.
  - intros [= <-]. left. apply length_map2. now apply Nat.eqb_eq.
  - destruct x as [ | a [ | a' x ] ]; destruct y as [ | b [ | b' y ] ];
      try discriminate; intros [= <-]; cbn [length map];
      rewrite ?length_map; cbn [length]; auto.
Qed.

Lemma tensor_add_mismatch (x y : list T) :
  length y <> length x -> length y <> 1%nat ->
  match tensor_add x y with
  | None => True
  | Some s => length s <> length x
  end.
Proof.
  intros Hne H1. unfold tensor_add.
  destruct (length x =? length y)%nat eqn:Hlen.
  - apply Nat.eqb_eq in Hlen. congruence.
  - destruct x as [ | a [ | a' x ] ]; destruct y as [ | b [ | b' y ] ];
      try exact I; cbn [length map] in *;
      rewrite ?length_map; cbn [length]; congruence.
Qed.

(** ** The invariant of the environment *)

(** The states the constructor builds and [reset] and [step] maintain. *)
Record wf e : Prop := mk_wf {
  wf_functions : functions e <> [];
  wf_n_functions : n_functions e = Z.of_nat (length (functions e));
  wf_dims : 0 <= dims e;
  wf_state : length (state e) = Z.to_nat (dims e);
  wf_fn_index : 0 <= fn_index e < n_functions e;
  wf_duration : - 2 ^ 31 <= duration e < 2 ^ 31;
  wf_steps : 0 <= steps_taken e <= Z.max (duration e) 1;
  wf_ended : episode_ended e = true <->
             1 <= steps_taken e /\ duration e <= steps_taken e
}.

(** The environments a program can hold: built by the constructor, then
    driven by any calls. *)
Inductive reachable : Env -> Prop :=
| reachable_init fns dims0 seed0 duration0 bounded alg0 e :
    init fns dims0 seed0 duration0 bounded alg0 = Some e -> reachable e
| reachable_call e c :
    reachable e -> reachable (env_of (do_call e c)).

(** The position lies in the box of the environment. *)
Definition in_domain e (x : list T) : Prop :=
  Forall (within (domain_min e) (domain_max e)) x.

(** The attributes that no call assigns. *)
Definition same_config e e' : Prop :=
  functions e' = functions e /\ domain_min e' = domain_min e /\
  domain_max e' = domain_max e /\ dims e' = dims e /\
  n_functions e' = n_functions e /\ duration e' = duration e /\
  bounded_actions_spec e' = bounded_actions_spec e /\
  seed e' = seed e /\ alg e' = alg e.

Lemma same_config_refl e : same_config e e.
Proof. repeat split. Qed.

Lemma int32_range_spec (z : Z) :
  int32_range z = true <-> - 2 ^ 31 <= z < 2 ^ 31.
Proof.
  unfold int32_range. rewrite andb_true_iff, Z.leb_le, Z.ltb_lt. tauto.
Qed.

Lemma wrap32_small (z : Z) : - 2 ^ 31 <= z < 2 ^ 31 -> wrap32 z = z.
Proof.
  intros Hz. unfold wrap32. rewrite Z.mod_small; lia.
Qed.

(** The classification of [_current_time_step]. *)
Definition classify e : StepType :=
  if steps_taken e =? 0 then FIRST
  else if episode_ended e then LAST else MID.

Lemma switch_case_nth (i : Z) (branches : list (unit -> T)) (b : unit -> T) :
  0 <= i -> nth_error branches (Z.to_nat i) = Some b ->
  switch_case i branches = Some (b tt).
Proof.
  intros Hpos Hnth. unfold switch_case.
  assert (Hlt : (Z.to_nat i < length branches)%nat).
  { apply nth_error_Some. congruence. }
  destruct branches as [ | b0 bs ]; [ cbn in Hlt; lia | ].
  assert (Hin : ((0 <=? i) && (i <? Z.of_nat (length (b0 :: bs)))) = true).
  { apply andb_true_iff. rewrite Z.leb_le, Z.ltb_lt. lia. }
  rewrite Hin. now rewrite (nth_error_nth _ _ b0 Hnth).
Qed.

Lemma switch_case_active e (x : list T) f :
  0 <= fn_index e ->
  nth_error (functions e) (Z.to_nat (fn_index e)) = Some f ->
  switch_case (fn_index e) (fn_evaluator e x) = Some (call f x).
Proof.
  intros Hpos Hnth. unfold fn_evaluator.
  apply (switch_case_nth _ Hpos
           (map_nth_error (fun f1 => fun _ : unit => call f1 x) _ _ Hnth)).
Qed.

Lemma active_function e :
  wf e -> exists f, nth_error (functions e) (Z.to_nat (fn_index e)) = Some f.
Proof.
  intros W.
  destruct (nth_error (functions e) (Z.to_nat (fn_index e))) as [ f | ] eqn:Hn.
  - now exists f.
  - apply nth_error_None in Hn.
    pose proof (wf_fn_index W). pose proof (wf_n_functions W). lia.
Qed.

(** [_current_time_step] on a state of the invariant. *)
Lemma current_time_step_wf e :
  wf e ->
  exists ts,
    current_time_step e = Some ts /\
    step_type ts = classify e /\
    discount ts = s_lit 1%Q /\
    observation ts = state e /\
    (steps_taken e = 0 -> reward ts = s_lit 0%Q) /\
    (steps_taken e <> 0 ->
     exists f, nth_error (functions e) (Z.to_nat (fn_index e)) = Some f /\
               reward ts = s_neg (call f (state e))).
Proof.
  intros W. destruct (active_function W) as [f Hf].
  pose proof (wf_steps W) as Hs. pose proof (wf_ended W) as He.
  pose proof (wf_fn_index W) as Hi.
  unfold current_time_step, _current_time_step, classify, less_equal.
  rewrite (switch_case_active e (state e) (proj1 Hi) Hf). cbn [option_map].
  destruct (Z.eqb_spec (steps_taken e) 0) as [Hz | Hnz].
  - rewrite Hz. cbn [Z.leb Z.compare andb].
    destruct (episode_ended e) eqn:Hend.
    + destruct He as [He _]. specialize (He eq_refl). lia.
    + cbn. eexists. repeat split; cbn; intuition.
  - assert (Hgt : (steps_taken e <=? 0) = false) by (apply Z.leb_gt; lia).
    rewrite Hgt. cbn [andb].
    destruct (episode_ended e); cbn; eexists; repeat split; cbn;
      try (intros; exists f; split; [ assumption | reflexivity ]);
      intros; contradiction.
Qed.

(** ** The constructor *)

Lemma init_some fns dims0 seed0 duration0 bounded alg0 e :
  init fns dims0 seed0 duration0 bounded alg0 = Some e ->
  fns <> [] /\ 0 <= dims0 /\ - 2 ^ 31 <= duration0 < 2 ^ 31 /\
  exists f0 rest,
    fns = f0 :: rest /\
    let sg := uniform (from_seed seed0 alg0) (Z.to_nat dims0)
                      (d_min (domain f0)) (d_max (domain f0)) in
    let ig := uniform_int (snd sg) 0 (Z.of_nat (length fns)) in
    e = mkEnv fns (fst ig) (d_min (domain f0)) (d_max (domain f0)) dims0
              (Z.of_nat (length fns)) bounded seed0 alg0 (snd ig)
              false 0 duration0 (fst sg).
Proof.
  unfold init. destruct fns as [ | f0 rest ]; [ discriminate | ].
  destruct (dims0 <? 0) eqn:Hd; [ discriminate | ].
  destruct (int32_range duration0) eqn:Hr; [ | discriminate ].
  cbn [negb].
  destruct (uniform _ _ _ _) as [s g1] eqn:Hu.
  destruct (uniform_int _ _ _) as [i g2] eqn:Hi.
  intros [= <-]. apply Z.ltb_ge in Hd. apply int32_range_spec in Hr.
  repeat split; try lia; try discriminate.
  exists f0, rest. split; [ reflexivity | ].
  cbn zeta. rewrite Hu. cbn [fst snd]. rewrite Hi. reflexivity.
Qed.

Lemma init_wf fns dims0 seed0 duration0 bounded alg0 e :
  init fns dims0 seed0 duration0 bounded alg0 = Some e -> wf e.
Proof.
  intros Hinit. apply init_some in Hinit.
  destruct Hinit as (Hne & Hd & Hr & f0 & rest & Hfns & He).
  cbn zeta in He. subst e.
  assert (Hlen : 0 < Z.of_nat (length fns)).
  { rewrite Hfns. cbn [length]. lia. }
  constructor; cbn.
  - assumption.
  - reflexivity.
  - assumption.
  - apply uniform_length.
  - apply uniform_int_range. assumption.
  - assumption.
  - lia.
  - split; [ discriminate | lia ].
Qed.

(** ** [reset] *)

(** The state that [_reset] leaves. *)
Definition reset_state e : Env :=
  let sg := uniform (rng e) (Z.to_nat (dims e))
                    (domain_min e) (domain_max e) in
  let ig := uniform_int (snd sg) 0 (n_functions e) in
  mkEnv (functions e) (fst ig) (domain_min e) (domain_max e) (dims e)
        (n_functions e) (bounded_actions_spec e) (seed e) (alg e) (snd ig)
        false 0 (duration e) (fst sg).

Lemma reset_unfold e :
  reset e = match current_time_step (reset_state e) with
            | Some ts => Returned ts (reset_state e)
            | None => Raised (reset_state e)
            end.
Proof.
  unfold reset, _reset, reset_state.
  cbn [set_episode_ended set_steps_taken rng dims domain_min domain_max].
  destruct (uniform _ _ _ _) as [s g1].
  cbn [set_rng set_state rng n_functions fst snd].
  destruct (uniform_int _ _ _) as [i g2]. reflexivity.
Qed.

Lemma reset_state_wf e : wf e -> wf (reset_state e).
Proof.
  intros W. destruct W. unfold reset_state. constructor; cbn; auto.
  - apply uniform_length.
  - apply uniform_int_range. destruct (functions e); [ congruence | ].
    cbn [length] in *. lia.
  - lia.
  - split; [ discriminate | lia ].
Qed.

Lemma reset_returns e :
  wf e ->
  exists ts,
    reset e = Returned ts (reset_state e) /\
    step_type ts = FIRST /\ reward ts = s_lit 0%Q /\
    discount ts = s_lit 1%Q /\ observation ts = state (reset_state e).
Proof.
  intros W. pose proof (reset_state_wf W) as W'.
  destruct (current_time_step_wf W') as (ts & Hts & Hty & Hd & Ho & Hr0 & _).
  exists ts. rewrite reset_unfold, Hts. repeat split; auto.
Qed.

(** ** [step] *)

(** The state that [take_step] leaves when the new position is [p]. *)
Definition stepped_state e (p : list T) : Env :=
  let n := wrap32 (steps_taken e + 1) in
  mkEnv (functions e) (fn_index e) (domain_min e) (domain_max e) (dims e)
        (n_functions e) (bounded_actions_spec e) (seed e) (alg e) (rng e)
        (if greater_equal n (duration e) then true else episode_ended e)
        n (duration e) p.

Lemma step_ended e (a : list T) :
  episode_ended e = true -> step e a = reset e.
Proof. intros He. unfold step, _step. now rewrite He. Qed.

Lemma step_unfold e (a sum : list T) :
  episode_ended e = false ->
  tensor_add (state e) a = Some sum ->
  length sum = length (state e) ->
  let e' := stepped_state e
              (clip_by_value sum (domain_min e) (domain_max e)) in
  step e a = match current_time_step e' with
             | Some ts => Returned ts e'
             | None => Raised e'
             end.
Proof.
  intros He Hsum Hlen. unfold step, _step. rewrite He, Hsum.
  unfold assign_state. rewrite length_clip_by_value, Hlen, Nat.eqb_refl.
  cbn [set_state set_steps_taken steps_taken duration].
  unfold stepped_state.
  destruct (greater_equal _ _); reflexivity.
Qed.

Lemma step_raises e (a : list T) :
  episode_ended e = false ->
  length a <> length (state e) -> length a <> 1%nat ->
  step e a = Raised e.
Proof.
  intros He Hne H1. unfold step, _step. rewrite He.
  pose proof (@tensor_add_mismatch (state e) a Hne H1) as Hm.
  destruct (tensor_add (state e) a) as [ sum | ]; [ | reflexivity ].
  unfold assign_state. rewrite length_clip_by_value.
  destruct (Nat.eqb_spec (length sum) (length (state e))); [ | reflexivity ].
  contradiction.
Qed.

Lemma stepped_state_wf e (p : list T) :
  wf e -> episode_ended e = false -> length p = length (state e) ->
  wf (stepped_state e p) /\
  steps_taken (stepped_state e p) = steps_taken e + 1 /\
  episode_ended (stepped_state e p) = (duration e <=? steps_taken e + 1).
Proof.
  intros W He Hp. destruct W as [Hf Hn Hd Hs Hi Hr Hst Hen].
  assert (Hlt : steps_taken e = 0 \/ steps_taken e < duration e).
  { destruct (Z.eq_dec (steps_taken e) 0); [ now left | right ].
    destruct (Z_lt_le_dec (steps_taken e) (duration e)); [ assumption | ].
    assert (episode_ended e = true) by (apply Hen; lia). congruence. }
  assert (Hw : wrap32 (steps_taken e + 1) = steps_taken e + 1).
  { apply wrap32_small. lia. }
  unfold stepped_state, greater_equal. rewrite Hw, He. cbn.
  split; [ | split; [ reflexivity | ] ].
  - constructor; cbn; auto; try lia.
    destruct (Z.leb_spec (duration e) (steps_taken e + 1));
      split; intros; try lia; try discriminate; reflexivity.
  - now destruct (duration e <=? steps_taken e + 1).
Qed.

(** ** Every call *)

(** A returned time step is the snapshot of the state the call leaves. *)
Lemma do_call_returned e c ts e' :
  do_call e c = Returned ts e' -> current_time_step e' = Some ts.
Proof.
  destruct c as [ | a | ]; cbn [do_call].
  - rewrite reset_unfold.
    destruct (current_time_step (reset_state e)) eqn:Hc; [ | discriminate ].
    now intros [= <- <-].
  - unfold step, _step. destruct (episode_ended e).
    + rewrite reset_unfold.
      destruct (current_time_step (reset_state e)) eqn:Hc; [ | discriminate ].
      now intros [= <- <-].
    + destruct (tensor_add (state e) a) as [ sum | ]; [ | discriminate ].
      destruct (assign_state e _) as [ e1 | ]; [ | discriminate ].
      match goal with
      | |- match current_time_step ?x with _ => _ end = _ -> _ =>
          destruct (current_time_step x) eqn:Hc; [ | discriminate ]
      end.
      now intros [= <- <-].
  - destruct (current_time_step e) eqn:Hc; [ | discriminate ].
    now intros [= <- <-].
Qed.

(** The three things a call can do to the state. *)
Lemma do_call_env e c :
  env_of (do_call e c) = e \/
  env_of (do_call e c) = reset_state e \/
  (episode_ended e = false /\
   exists a sum,
     c = CStep a /\ tensor_add (state e) a = Some sum /\
     length sum = length (state e) /\
     env_of (do_call e c)
     = stepped_state e (clip_by_value sum (domain_min e) (domain_max e))).
Proof.
  destruct c as [ | a | ]; cbn [do_call].
  - right; left. rewrite reset_unfold.
    now destruct (current_time_step (reset_state e)).
  - destruct (episode_ended e) eqn:He.
    + right; left. rewrite (step_ended e a He), reset_unfold.
      now destruct (current_time_step (reset_state e)).
    + destruct (tensor_add (state e) a) as [ sum | ] eqn:Hsum.
      * destruct (Nat.eq_dec (length sum) (length (state e))) as [ Hl | Hl ].
        -- right; right. split; [ reflexivity | ]. exists a, sum.
           repeat split; auto.
           rewrite (step_unfold e a He Hsum Hl). cbn zeta.
           now destruct (current_time_step _).
        -- left. unfold step, _step. rewrite He, Hsum.
           unfold assign_state. rewrite length_clip_by_value.
           apply Nat.eqb_neq in Hl. now rewrite Hl.
      * left. unfold step, _step. now rewrite He, Hsum.
  - left. now destruct (current_time_step e).
Qed.

Lemma do_call_wf e c : wf e -> wf (env_of (do_call e c)).
Proof.
  intros W.
  destruct (do_call_env e c) as [ -> | [ -> | (He & a & sum & _ & _ & Hl & ->) ] ].
  - assumption.
  - now apply reset_state_wf.
  - apply stepped_state_wf; auto.
    now rewrite length_clip_by_value.
Qed.

Lemma do_call_same_config e c : same_config e (env_of (do_call e c)).
Proof.
  destruct (do_call_env e c) as [ -> | [ -> | (_ & a & sum & _ & _ & _ & ->) ] ];
    repeat split.
Qed.

Lemma reachable_wf e : reachable e -> wf e.
Proof.
  induction 1 as [ ? ? ? ? ? ? ? Hinit | e c _ IH ].
  - eapply init_wf; eassumption.
  - now apply do_call_wf.
Qed.

Lemma reset_state_in_domain e :
  wf e -> s_leb (domain_min e) (domain_max e) = true ->
  in_domain e (state (reset_state e)).
Proof.
  intros _ Hd. unfold in_domain, reset_state. cbn [state].
  pose proof (uniform_range (rng e) (Z.to_nat (dims e))
                            (domain_min e) (domain_max e)) as Hr.
  unfold s_leb in Hd. apply negb_true_iff in Hd. specialize (Hr Hd).
  eapply Forall_impl; [ | exact Hr ].
  intros x [Hlo Hhi]. unfold within, s_leb. now rewrite Hlo, Hhi.
Qed.

Lemma do_call_in_domain e c :
  wf e -> s_leb (domain_min e) (domain_max e) = true ->
  in_domain e (state e) ->
  in_domain e (state (env_of (do_call e c))).
Proof.
  intros W Hd Hin.
  destruct (do_call_env e c) as [ -> | [ -> | (_ & a & sum & _ & _ & _ & ->) ] ].
  - assumption.
  - now apply reset_state_in_domain.
  - cbn [stepped_state state]. now apply clip_by_value_within.
Qed.

Lemma reachable_in_domain e :
  reachable e -> s_leb (domain_min e) (domain_max e) = true ->
  in_domain e (state e).
Proof.
  induction 1 as [ fns ? ? ? ? ? e Hinit | e c Hr IH ]; intros Hd.
  - apply init_some in Hinit.
    destruct Hinit as (_ & _ & _ & f0 & rest & _ & He). cbn zeta in He.
    subst e. unfold in_domain. cbn [state domain_min domain_max] in *.
    unfold s_leb in Hd. apply negb_true_iff in Hd.
    eapply Forall_impl; [ | exact (uniform_range _ _ _ _ Hd) ].
    intros x [Hlo Hhi]. unfold within, s_leb. now rewrite Hlo, Hhi.
  - destruct (do_call_same_config e c) as (_ & Hmin & Hmax & _).
    rewrite Hmin, Hmax in Hd. unfold in_domain. rewrite Hmin, Hmax.
    apply do_call_in_domain; auto. now apply reachable_wf.
Qed.

(** A well-shaped [step] of a running episode returns, and what it
    returns. *)
Lemma step_returns e (a sum : list T) :
  wf e -> episode_ended e = false ->
  tensor_add (state e) a = Some sum -> length sum = length (state e) ->
  let p := clip_by_value sum (domain_min e) (domain_max e) in
  exists ts,
    step e a = Returned ts (stepped_state e p) /\
    step_type ts = (if duration e <=? steps_taken e + 1 then LAST else MID) /\
    observation ts = p.
Proof.
  intros W He Hsum Hl p.
  assert (Hp : length p = length (state e)).
  { unfold p. now rewrite length_clip_by_value. }
  destruct (stepped_state_wf p W He Hp) as (W' & Hs & Hen).
  destruct (current_time_step_wf W') as (ts & Hts & Hty & _ & Ho & _).
  exists ts. rewrite (step_unfold e a He Hsum Hl). cbn zeta. fold p.
  rewrite Hts. split; [ reflexivity | ]. split; [ | exact Ho ].
  rewrite Hty. unfold classify. rewrite Hs, Hen.
  pose proof (wf_steps W).
  destruct (Z.eqb_spec (steps_taken e + 1) 0); [ lia | reflexivity ].
Qed.

(** ** The claims about the environment *)

(** C2: every time step that [reset], [step] or [current_time_step] returns
    observes the position the call leaves; it is a FIRST step exactly when
    the step counter is 0 and then its reward is 0; otherwise its reward is
    the negation of the active catalog function at its observation. *)
Theorem reward_negated_objective e c ts e' :
  reachable e -> do_call e c = Returned ts e' ->
  observation ts = state e' /\
  (step_type ts = FIRST <-> steps_taken e' = 0) /\
  (step_type ts = FIRST -> reward ts = s_lit 0%Q) /\
  (step_type ts <> FIRST ->
   exists f,
     nth_error (functions e') (Z.to_nat (fn_index e')) = Some f /\
     reward ts = negative (call f (observation ts))).
Proof.
  intros Hr Hcall.
  assert (W' : wf e').
  { replace e' with (env_of (do_call e c)) by now rewrite Hcall.
    apply do_call_wf. now apply reachable_wf. }
  apply do_call_returned in Hcall.
  destruct (current_time_step_wf W') as (ts0 & Hts & Hty & _ & Ho & H0 & Hn).
  rewrite Hcall in Hts. injection Hts as <-.
  assert (Hfirst : step_type ts = FIRST <-> steps_taken e' = 0).
  { rewrite Hty. unfold classify.
    destruct (Z.eqb_spec (steps_taken e') 0) as [ Hz | Hz ].
    - tauto.
    - destruct (episode_ended e'); split; intros; try discriminate; lia. }
  split; [ exact Ho | ]. split; [ exact Hfirst | ]. split.
  - intros Hf. apply H0. now apply Hfirst.
  - intros Hf. rewrite Ho. unfold negative. apply Hn.
    intros Hz. apply Hf. now apply Hfirst.
Qed.

(** C3: with a box [domain_min <= domain_max], the position of a reachable
    environment lies in the box, and so does the observation of every time
    step that a further call returns, whatever the actions; a step of a
    running episode with an action of the configured dimensionality returns,
    and the new position is [clip (old position + action)]. *)
Theorem position_within_domain e :
  reachable e -> s_leb (domain_min e) (domain_max e) = true ->
  in_domain e (state e) /\
  (forall c ts e',
      do_call e c = Returned ts e' ->
      in_domain e (observation ts) /\ in_domain e (state e')) /\
  (forall a,
      episode_ended e = false -> length a = Z.to_nat (dims e) ->
      exists ts e',
        step e a = Returned ts e' /\
        state e' = clip_by_value (map2 s_add (state e) a)
                                 (domain_min e) (domain_max e) /\
        observation ts = state e').
Proof.
  intros Hr Hd. pose proof (reachable_wf Hr) as W.
  pose proof (reachable_in_domain Hr Hd) as Hin.
  split; [ exact Hin | ]. split.
  - intros c ts e' Hcall.
    assert (Hin' : in_domain e (state e')).
    { replace e' with (env_of (do_call e c)) by now rewrite Hcall.
      now apply do_call_in_domain. }
    split; [ | exact Hin' ].
    assert (W' : wf e').
    { replace e' with (env_of (do_call e c)) by now rewrite Hcall.
      now apply do_call_wf. }
    apply do_call_returned in Hcall.
    destruct (current_time_step_wf W') as (ts0 & Hts & _ & _ & Ho & _).
    rewrite Hcall in Hts. injection Hts as <-. now rewrite Ho.
  - intros a He Ha.
    assert (Hlen : length a = length (state e)).
    { now rewrite (wf_state W). }
    pose proof (tensor_add_same_shape (state e) a Hlen) as Hsum.
    assert (Hl : length (map2 s_add (state e) a) = length (state e)).
    { apply length_map2. now symmetry. }
    destruct (step_returns a W He Hsum Hl) as (ts & Hstep & _ & Ho).
    exists ts, (stepped_state e
                  (clip_by_value (map2 s_add (state e) a)
                                 (domain_min e) (domain_max e))).
    split; [ exact Hstep | ]. split; [ reflexivity | exact Ho ].
Qed.

(** C5: when the episode-ended flag is set, [step] does what [reset] does
    and ignores the action: it returns a FIRST time step with reward 0, the
    position and the function index are the next two draws of the stream
    (the position in the box, the index in [0, catalog size)), the step
    counter is 0 and the flag is cleared. *)
Theorem step_after_end_resets e (a : list T) :
  reachable e -> episode_ended e = true ->
  step e a = reset e /\
  exists ts e',
    step e a = Returned ts e' /\
    step_type ts = FIRST /\ reward ts = s_lit 0%Q /\
    observation ts = state e' /\
    steps_taken e' = 0 /\ episode_ended e' = false /\
    (let sg := uniform (rng e) (Z.to_nat (dims e))
                       (domain_min e) (domain_max e) in
     let ig := uniform_int (snd sg) 0 (n_functions e) in
     state e' = fst sg /\ fn_index e' = fst ig /\ rng e' = snd ig) /\
    0 <= fn_index e' < Z.of_nat (length (functions e')) /\
    same_config e e' /\
    (s_leb (domain_min e) (domain_max e) = true -> in_domain e (state e')).
Proof.
  intros Hr He. pose proof (reachable_wf Hr) as W.
  split; [ now apply step_ended | ].
  destruct (reset_returns W) as (ts & Hreset & Hty & Hrw & _ & Ho).
  exists ts, (reset_state e). rewrite (step_ended e a He).
  pose proof (reset_state_wf W) as W'.
  repeat split; auto.
  - pose proof (wf_fn_index W'). lia.
  - pose proof (wf_fn_index W'). pose proof (wf_n_functions W'). lia.
  - intros Hd. now apply reset_state_in_domain.
Qed.

(** C6, as the code has it: the discount of every returned time step is
    1.0, whatever its step type, LAST included. *)
Theorem discount_always_one e c ts e' :
  do_call e c = Returned ts e' -> discount ts = s_lit 1%Q.
Proof.
  intros Hcall. apply do_call_returned in Hcall.
  unfold current_time_step, _current_time_step in Hcall.
  destruct (if _ && _ then _ else _) as [ [st r] | ]; [ | discriminate ].
  cbn in Hcall. now injection Hcall as <-.
Qed.

(** C7, as the code has it: the constructor fails exactly on an empty
    catalog, a negative dimensionality, or a duration that is not an int32;
    it compares no domains and accepts every other duration and
    dimensionality, and the box is that of the first function. *)
Theorem init_fails_iff fns dims0 seed0 duration0 bounded alg0 :
  (init fns dims0 seed0 duration0 bounded alg0 = None <->
   fns = [] \/ dims0 < 0 \/ ~ (- 2 ^ 31 <= duration0 < 2 ^ 31)) /\
  (forall e,
      init fns dims0 seed0 duration0 bounded alg0 = Some e ->
      functions e = fns /\ dims e = dims0 /\ duration e = duration0 /\
      exists f0 rest,
        fns = f0 :: rest /\
        domain_min e = d_min (domain f0) /\
        domain_max e = d_max (domain f0)).
Proof.
  split.
  - unfold init. destruct fns as [ | f0 rest ]; [ tauto | ].
    destruct (Z.ltb_spec dims0 0) as [ Hd | Hd ].
    { split; auto. }
    destruct (int32_range duration0) eqn:Hr; cbn [negb].
    + apply int32_range_spec in Hr.
      destruct (uniform _ _ _ _) as [s g1].
      destruct (uniform_int _ _ _) as [i g2].
      split; [ discriminate | ].
      intros [ Hf | [ Hn | Hn ] ]; [ discriminate | lia | tauto ].
    + split; [ intros _ | reflexivity ].
      right; right. intros Hn. apply int32_range_spec in Hn. congruence.
  - intros e Hinit. apply init_some in Hinit.
    destruct Hinit as (_ & _ & _ & f0 & rest & Hfns & He).
    cbn zeta in He. subst e. cbn. repeat split.
    exists f0, rest. repeat split. exact Hfns.
Qed.

(** C8, as the code has it: while the episode has not ended, a [step]
    whose action has neither the length of the position nor length 1 raises
    and leaves every variable and the stream as they were. *)
Theorem ill_shaped_action_raises e (a : list T) :
  reachable e -> episode_ended e = false ->
  length a <> Z.to_nat (dims e) -> length a <> 1%nat ->
  step e a = Raised e.
Proof.
  intros Hr He Hne H1. apply step_raises; auto.
  now rewrite (wf_state (reachable_wf Hr)).
Qed.

(** C10: a constructed environment has step counter 0 and a cleared
    episode-ended flag; its position and function index are the first two
    draws of the stream seeded by [seed], the position of length [dims] and
    in the box (when the box is not empty), the index in [0, catalog size);
    [current_time_step] returns a FIRST time step with reward 0 that
    observes this position. *)
Theorem init_ready fns dims0 seed0 duration0 bounded alg0 e :
  init fns dims0 seed0 duration0 bounded alg0 = Some e ->
  steps_taken e = 0 /\ episode_ended e = false /\
  (let sg := uniform (from_seed seed0 alg0) (Z.to_nat dims0)
                     (domain_min e) (domain_max e) in
   let ig := uniform_int (snd sg) 0 (Z.of_nat (length fns)) in
   state e = fst sg /\ fn_index e = fst ig /\ rng e = snd ig) /\
  length (state e) = Z.to_nat dims0 /\
  0 <= fn_index e < Z.of_nat (length fns) /\
  (s_leb (domain_min e) (domain_max e) = true -> in_domain e (state e)) /\
  exists ts,
    current_time_step e = Some ts /\
    step_type ts = FIRST /\ reward ts = s_lit 0%Q /\
    observation ts = state e.
Proof.
  intros Hinit.
  pose proof (init_wf _ _ _ _ _ _ Hinit) as W.
  pose proof (reachable_init _ _ _ _ _ _ Hinit) as Hr.
  apply init_some in Hinit.
  destruct Hinit as (_ & _ & _ & f0 & rest & Hfns & He). cbn zeta in He.
  assert (Hs : steps_taken e = 0) by now subst e.
  split; [ exact Hs | ]. split; [ now subst e | ].
  split; [ now subst e | ].
  split; [ subst e; apply uniform_length | ].
  split.
  { pose proof (wf_fn_index W) as Hi. rewrite (wf_n_functions W) in Hi.
    replace (functions e) with fns in Hi by now subst e. exact Hi. }
  split; [ now apply reachable_in_domain | ].
  destruct (current_time_step_wf W) as (ts & Hts & Hty & _ & Ho & H0 & _).
  exists ts. repeat split; auto.
  rewrite Hty. unfold classify. now rewrite Hs.
Qed.

(** ** Episodes *)

Lemma run_app e (cs1 cs2 : list call_t) :
  run e (cs1 ++ cs2) = run e cs1 ++ run (after e cs1) cs2.
Proof.
  revert e. induction cs1 as [ | c cs1 IH ]; intros e; [ reflexivity | ].
  cbn [app run]. now rewrite IH.
Qed.

Lemma after_app e (cs1 cs2 : list call_t) :
  after e (cs1 ++ cs2) = after (after e cs1) cs2.
Proof. unfold after. apply fold_left_app. Qed.

(** An action of the configured dimensionality. *)
Definition well_shaped e (a : list T) : Prop := length a = Z.to_nat (dims e).

(** One step of a running episode with a well-shaped action. *)
Lemma step_running e (a : list T) :
  wf e -> episode_ended e = false -> well_shaped e a ->
  exists ts e',
    step e a = Returned ts e' /\ wf e' /\ same_config e e' /\
    steps_taken e' = steps_taken e + 1 /\
    episode_ended e' = (duration e <=? steps_taken e + 1) /\
    step_type ts = (if duration e <=? steps_taken e + 1 then LAST else MID).
Proof.
  intros W He Ha.
  assert (Hlen : length a = length (state e)).
  { unfold well_shaped in Ha. now rewrite (wf_state W). }
  pose proof (tensor_add_same_shape (state e) a Hlen) as Hsum.
  assert (Hl : length (map2 s_add (state e) a) = length (state e)).
  { apply length_map2. now symmetry. }
  destruct (step_returns a W He Hsum Hl) as (ts & Hstep & Hty & _).
  set (p := clip_by_value _ _ _) in *.
  assert (Hp : length p = length (state e)).
  { unfold p. now rewrite length_clip_by_value. }
  destruct (stepped_state_wf p W He Hp) as (W' & Hs & Hen).
  exists ts, (stepped_state e p).
  split; [ exact Hstep | ]. split; [ exact W' | ].
  split; [ repeat split | ]. auto.
Qed.

(** Steps that stay below the duration are all MID. *)
Lemma mid_steps (acts : list (list T)) :
  forall e,
    wf e -> episode_ended e = false -> Forall (well_shaped e) acts ->
    steps_taken e + Z.of_nat (length acts) < duration e ->
    map (option_map step_type) (run e (map CStep acts))
    = repeat (Some MID) (length acts) /\
    wf (after e (map CStep acts)) /\
    same_config e (after e (map CStep acts)) /\
    episode_ended (after e (map CStep acts)) = false /\
    steps_taken (after e (map CStep acts))
    = steps_taken e + Z.of_nat (length acts).
Proof.
  induction acts as [ | a acts IH ]; intros e W He Hsh Hlt.
  - cbn. split; [ reflexivity | ]. split; [ exact W | ].
    split; [ apply same_config_refl | ]. split; [ exact He | lia ].
  - inversion Hsh as [ | ? ? Ha Hsh' ]; subst.
    cbn [length] in Hlt.
    destruct (step_running W He Ha) as (ts & e1 & Hstep & W1 & Hc & Hs & Hen & Hty).
    assert (Hnot : (duration e <=? steps_taken e + 1) = false).
    { apply Z.leb_gt. lia. }
    rewrite Hnot in Hen, Hty.
    destruct Hc as (Hc1 & Hc2 & Hc3 & Hc4 & Hc5 & Hc6 & Hc7 & Hc8 & Hc9).
    assert (Hsh1 : Forall (well_shaped e1) acts).
    { eapply Forall_impl; [ | exact Hsh' ].
      unfold well_shaped. intros x Hx. now rewrite Hc4. }
    assert (Hlt1 : steps_taken e1 + Z.of_nat (length acts) < duration e1).
    { rewrite Hs, Hc6. lia. }
    destruct (IH e1 W1 Hen Hsh1 Hlt1) as (Hrun & Wn & Hcn & Hen_n & Hsn).
    cbn [map run after fold_left do_call length repeat].
    rewrite Hstep. cbn [time_step_of env_of option_map].
    fold (after e1 (map CStep acts)).
    rewrite Hrun, Hty. split; [ reflexivity | ]. split; [ exact Wn | ].
    split; [ | split; [ exact Hen_n | lia ] ].
    destruct Hcn as (? & ? & ? & ? & ? & ? & ? & ? & ?).
    repeat split; congruence.
Qed.

(** C1: after a fresh [reset] of an environment of duration [D >= 1], any
    [D] well-shaped steps return MID [D - 1] times and then LAST; after [k]
    of them the step counter is [k] and the episode-ended flag is set
    exactly when [k] has reached [D]; one more [step], with any action,
    returns a FIRST time step. *)
Theorem episode_length e (D : Z) :
  reachable e -> duration e = D -> 1 <= D ->
  exists ts0 e0,
    reset e = Returned ts0 e0 /\ step_type ts0 = FIRST /\
    forall acts,
      length acts = Z.to_nat D -> Forall (well_shaped e) acts ->
      map (option_map step_type) (run e0 (map CStep acts))
      = repeat (Some MID) (Z.to_nat D - 1) ++ [Some LAST] /\
      (forall k,
          (k <= Z.to_nat D)%nat ->
          steps_taken (after e0 (map CStep (firstn k acts))) = Z.of_nat k /\
          episode_ended (after e0 (map CStep (firstn k acts)))
          = (D <=? Z.of_nat k)) /\
      (forall a,
          exists ts e',
            step (after e0 (map CStep acts)) a = Returned ts e' /\
            step_type ts = FIRST).
Proof.
  intros Hr HD Hpos. pose proof (reachable_wf Hr) as W.
  destruct (reset_returns W) as (ts0 & Hreset & Hty0 & _).
  pose proof (reset_state_wf W) as W0.
  exists ts0, (reset_state e). split; [ exact Hreset | ].
  split; [ exact Hty0 | ].
  set (e0 := reset_state e) in *.
  assert (Hs0 : steps_taken e0 = 0) by reflexivity.
  assert (He0 : episode_ended e0 = false) by reflexivity.
  assert (Hd0 : duration e0 = D) by exact HD.
  assert (Hdims0 : dims e0 = dims e) by reflexivity.
  intros acts Hlen Hsh.
  assert (Hsh0 : Forall (well_shaped e0) acts).
  { eapply Forall_impl; [ | exact Hsh ]. unfold well_shaped.
    intros x Hx. now rewrite Hdims0. }
  (* the prefixes shorter than D *)
  assert (Hprefix :
    forall k, (k < Z.to_nat D)%nat ->
      map (option_map step_type) (run e0 (map CStep (firstn k acts)))
      = repeat (Some MID) k /\
      wf (after e0 (map CStep (firstn k acts))) /\
      same_config e0 (after e0 (map CStep (firstn k acts))) /\
      episode_ended (after e0 (map CStep (firstn k acts))) = false /\
      steps_taken (after e0 (map CStep (firstn k acts))) = Z.of_nat k).
  { intros k Hk.
    assert (Hlk : length (firstn k acts) = k).
    { rewrite length_firstn. lia. }
    assert (Hshk : Forall (well_shaped e0) (firstn k acts)).
    { rewrite <- (firstn_skipn k acts) in Hsh0.
      now apply Forall_app in Hsh0. }
    destruct (@mid_steps (firstn k acts) e0 W0 He0 Hshk)
      as (Hrun & Wk & Hck & Hek & Hsk).
    { rewrite Hlk, Hs0, Hd0. lia. }
    rewrite Hlk in *. split; [ exact Hrun | ]. split; [ exact Wk | ].
    split; [ exact Hck | ]. split; [ exact Hek | lia ]. }
  (* the last of the D steps *)
  assert (Hne : acts <> []).
  { intros ->. cbn in Hlen. lia. }
  destruct (exists_last Hne) as (front & al & Hacts).
  assert (Hfl : length front = (Z.to_nat D - 1)%nat).
  { rewrite Hacts, length_app in Hlen. cbn in Hlen. lia. }
  assert (Hfirst : firstn (Z.to_nat D - 1) acts = front).
  { rewrite Hacts, <- Hfl. rewrite firstn_app, Nat.sub_diag, firstn_all.
    cbn. apply app_nil_r. }
  destruct (Hprefix (Z.to_nat D - 1)%nat ltac:(lia))
    as (Hrunf & Wf & Hcf & Hef & Hsf).
  rewrite Hfirst in *.
  set (ef := after e0 (map CStep front)) in *.
  assert (Hal : well_shaped ef al).
  { rewrite Hacts in Hsh0. apply Forall_app in Hsh0.
    destruct Hsh0 as [_ Hl]. inversion Hl as [ | ? ? Hx _ ]; subst.
    unfold well_shaped in *. destruct Hcf as (_ & _ & _ & Hcd & _).
    now rewrite Hcd. }
  destruct (step_running Wf Hef Hal)
    as (tsl & el & Hstep & Wl & Hcl & Hsl & Hel & Htyl).
  assert (Hdf : duration ef = D).
  { destruct Hcf as (_ & _ & _ & _ & _ & Hcd & _). now rewrite Hcd. }
  assert (Hreach : (duration ef <=? steps_taken ef + 1) = true).
  { apply Z.leb_le. rewrite Hdf, Hsf. lia. }
  rewrite Hreach in Hel, Htyl.
  assert (Hafter : after e0 (map CStep acts) = el).
  { rewrite Hacts, map_app, after_app. fold ef. cbn.
    now rewrite Hstep. }
  split; [ | split ].
  - rewrite Hacts at 1. rewrite map_app, run_app. fold ef.
    rewrite map_app, Hrunf. f_equal.
    cbn. now rewrite Hstep, <- Htyl.
  - intros k Hk. destruct (Nat.eq_dec k (Z.to_nat D)) as [ -> | Hneq ].
    + rewrite <- Hlen, firstn_all, Hafter. split.
      * rewrite Hsl, Hsf. lia.
      * rewrite Hel. symmetry. apply Z.leb_le. lia.
    + destruct (Hprefix k ltac:(lia)) as (_ & _ & _ & Hek & Hsk).
      split; [ exact Hsk | ]. rewrite Hek. symmetry. apply Z.leb_gt. lia.
  - intros a. rewrite Hafter. rewrite (step_ended el a Hel).
    destruct (reset_returns Wl) as (ts & Hres & Hty & _).
    now exists ts, (reset_state el).
Qed.

(** ** Determinism *)

(** Two catalog entries that cannot be told apart: same name, same domain,
    same values and gradients at every point. *)
Definition same_function f g : Prop :=
  name f = name g /\ domain f = domain g /\
  (forall x, call f x = call g x) /\
  (forall x, grads_at f x = grads_at g x).

(** Two environments that agree on every attribute, their catalogs entry
    by entry. *)
Definition same_env e1 e2 : Prop :=
  Forall2 same_function (functions e1) (functions e2) /\
  e2 = mkEnv (functions e2) (fn_index e1) (domain_min e1) (domain_max e1)
             (dims e1) (n_functions e1) (bounded_actions_spec e1) (seed e1)
             (alg e1) (rng e1) (episode_ended e1) (steps_taken e1)
             (duration e1) (state e1).

Lemma Forall2_nth_last {A B : Type} (R : A -> B -> Prop)
      (l1 : list A) (l2 : list B) (d1 : A) (d2 : B) :
  Forall2 R l1 l2 -> R d1 d2 ->
  (forall n, R (nth n l1 d1) (nth n l2 d2)) /\ R (last l1 d1) (last l2 d2).
Proof.
  intros HF Hd. induction HF as [ | a b l1 l2 Hab HF IH ].
  - split; [ intros [ | n ]; exact Hd | exact Hd ].
  - destruct IH as [IHn IHl]. split.
    + intros [ | n ]; [ exact Hab | apply IHn ].
    + cbn [last]. inversion HF; subst; [ exact Hab | exact IHl ].
Qed.

Lemma switch_case_same (i : Z) (bs1 bs2 : list (unit -> T)) :
  Forall2 (fun b1 b2 => b1 tt = b2 tt) bs1 bs2 ->
  switch_case i bs1 = switch_case i bs2.
Proof.
  intros HF. unfold switch_case.
  rewrite (Forall2_length HF).
  destruct HF as [ | b1 b2 l1 l2 Hb HF ]; [ reflexivity | ].
  destruct (@Forall2_nth_last _ _ _ _ _ b1 b2
              (Forall2_cons _ _ Hb HF) Hb) as [Hn Hl].
  destruct (_ && _); f_equal; [ apply Hn | apply Hl ].
Qed.

Lemma fn_evaluator_same e1 e2 (x : list T) :
  Forall2 same_function (functions e1) (functions e2) ->
  Forall2 (fun b1 b2 : unit -> T => b1 tt = b2 tt)
          (fn_evaluator e1 x) (fn_evaluator e2 x).
Proof.
  unfold fn_evaluator. intros HF.
  induction HF as [ | f g l1 l2 Hfg HF IH ]; cbn [map]; constructor.
  - destruct Hfg as (_ & _ & Hcall & _). apply Hcall.
  - exact IH.
Qed.

Lemma current_time_step_same e1 e2 :
  same_env e1 e2 -> current_time_step e1 = current_time_step e2.
Proof.
  intros [HF He]. unfold current_time_step, _current_time_step.
  assert (Hi : fn_index e2 = fn_index e1) by (rewrite He; reflexivity).
  assert (Hs : state e2 = state e1) by (rewrite He; reflexivity).
  assert (Hn : steps_taken e2 = steps_taken e1) by (rewrite He; reflexivity).
  assert (Hd : episode_ended e2 = episode_ended e1)
    by (rewrite He; reflexivity).
  rewrite Hi, Hs, Hn, Hd.
  rewrite (switch_case_same (fn_index e1)
             (fn_evaluator_same e1 e2 (state e1) HF)).
  reflexivity.
Qed.

Lemma reset_state_same e1 e2 :
  same_env e1 e2 -> same_env (reset_state e1) (reset_state e2).
Proof.
  intros [HF He]. split; [ exact HF | ].
  rewrite He. reflexivity.
Qed.

Lemma stepped_state_same e1 e2 (p : list T) :
  same_env e1 e2 -> same_env (stepped_state e1 p) (stepped_state e2 p).
Proof.
  intros [HF He]. split; [ exact HF | ].
  rewrite He. reflexivity.
Qed.

Lemma step_not_ended e (a : list T) :
  episode_ended e = false ->
  step e a
  = match tensor_add (state e) a with
    | None => Raised e
    | Some sum =>
        let p := clip_by_value sum (domain_min e) (domain_max e) in
        if (length p =? length (state e))%nat
        then match current_time_step (stepped_state e p) with
             | Some ts => Returned ts (stepped_state e p)
             | None => Raised (stepped_state e p)
             end
        else Raised e
    end.
Proof.
  intros He. unfold step, _step. rewrite He.
  destruct (tensor_add (state e) a) as [ sum | ]; [ | reflexivity ].
  cbn zeta. unfold assign_state.
  destruct (_ =? _)%nat; [ | reflexivity ].
  cbn [set_state set_steps_taken steps_taken duration].
  unfold stepped_state. destruct (greater_equal _ _); reflexivity.
Qed.

(** Equal calls on indistinguishable environments return the same and
    leave indistinguishable environments. *)
Lemma do_call_same e1 e2 c :
  same_env e1 e2 ->
  time_step_of (do_call e1 c) = time_step_of (do_call e2 c) /\
  same_env (env_of (do_call e1 c)) (env_of (do_call e2 c)).
Proof.
  intros Hs.
  assert (Hreset : time_step_of (reset e1) = time_step_of (reset e2) /\
                   same_env (env_of (reset e1)) (env_of (reset e2))).
  { rewrite !reset_unfold.
    rewrite <- (current_time_step_same (reset_state_same Hs)).
    pose proof (reset_state_same Hs).
    destruct (current_time_step (reset_state e1)); cbn; auto. }
  assert (Hst : state e2 = state e1 /\ episode_ended e2 = episode_ended e1
                /\ domain_min e2 = domain_min e1
                /\ domain_max e2 = domain_max e1).
  { destruct Hs as [_ He]. rewrite He. cbn. auto. }
  destruct Hst as (Hstate & Hend & Hmin & Hmax).
  destruct c as [ | a | ]; cbn [do_call].
  - exact Hreset.
  - destruct (episode_ended e1) eqn:He1.
    + rewrite (step_ended e1 a He1), (step_ended e2 a); [ exact Hreset | ].
      congruence.
    + rewrite (step_not_ended e1 a He1), (step_not_ended e2 a) by congruence.
      rewrite Hstate, Hmin, Hmax.
      destruct (tensor_add (state e1) a) as [ sum | ]; [ | cbn; auto ].
      cbn zeta. destruct (_ =? _)%nat; [ | cbn; auto ].
      rewrite <- (current_time_step_same (stepped_state_same _ Hs)).
      pose proof (stepped_state_same
                    (clip_by_value sum (domain_min e1) (domain_max e1)) Hs).
      destruct (current_time_step (stepped_state e1 _)); cbn; auto.
  - rewrite <- (current_time_step_same Hs).
    destruct (current_time_step e1); cbn; auto.
Qed.

Lemma run_same (cs : list call_t) :
  forall e1 e2, same_env e1 e2 -> run e1 cs = run e2 cs.
Proof.
  induction cs as [ | c cs IH ]; intros e1 e2 Hs; [ reflexivity | ].
  destruct (do_call_same c Hs) as [Hts Hs'].
  cbn [run]. rewrite Hts. f_equal. now apply IH.
Qed.

(** Two constructions with the same seed, generator algorithm,
    dimensionality and duration, over catalogs whose functions agree one by
    one, are both built or both refused; when built, the two values answer
    any sequence of calls alike. *)
Lemma same_construction_same_runs fns1 fns2 dims0 seed0 duration0 bounded
      alg0 :
  Forall2 same_function fns1 fns2 ->
  match init fns1 dims0 seed0 duration0 bounded alg0,
        init fns2 dims0 seed0 duration0 bounded alg0 with
  | Some e1, Some e2 => forall cs, run e1 cs = run e2 cs
  | None, None => True
  | _, _ => False
  end.
Proof.
  intros HF.
  destruct (init fns1 dims0 seed0 duration0 bounded alg0) as [ e1 | ] eqn:H1;
    destruct (init fns2 dims0 seed0 duration0 bounded alg0) as [ e2 | ] eqn:H2.
  - intros cs. apply run_same.
    apply init_some in H1. apply init_some in H2.
    destruct H1 as (_ & _ & _ & f1 & r1 & Hf1 & He1).
    destruct H2 as (_ & _ & _ & f2 & r2 & Hf2 & He2).
    cbn zeta in He1, He2.
    assert (Hd : domain f1 = domain f2).
    { rewrite Hf1, Hf2 in HF. inversion HF as [ | ? ? ? ? Hfg _ ]; subst.
      now destruct Hfg as (_ & Hd & _). }
    rewrite <- (Forall2_length HF), <- Hd in He2.
    subst e1 e2. split; [ exact HF | reflexivity ].
  - apply init_some in H1. destruct H1 as (_ & Hd & Hr & f1 & r1 & Hf1 & _).
    unfold init in H2. rewrite Hf1 in HF.
    inversion HF as [ | ? g ? r2 _ _ ]; subst.
    assert (Hd' : (dims0 <? 0) = false) by (apply Z.ltb_ge; lia).
    apply int32_range_spec in Hr. rewrite Hd', Hr in H2. cbn [negb] in H2.
    destruct (uniform _ _ _ _), (uniform_int _ _ _). discriminate.
  - apply init_some in H2. destruct H2 as (_ & Hd & Hr & f2 & r2 & Hf2 & _).
    unfold init in H1. rewrite Hf2 in HF.
    inversion HF as [ | g ? r1 ? _ _ ]; subst.
    assert (Hd' : (dims0 <? 0) = false) by (apply Z.ltb_ge; lia).
    apply int32_range_spec in Hr. rewrite Hd', Hr in H1. cbn [negb] in H1.
    destruct (uniform _ _ _ _), (uniform_int _ _ _). discriminate.
  - exact I.
Qed.

End Properties.


(** * Environment objects in a process *)

Section Instances.

Context {T : Type} {ST : Scalar T} {G : Type} {GT : @Generator T ST G}.

(** The process in which environment objects live: the objects created so
    far, in the order of their creation, and the two sources of randomness
    that belong to no object, the global generator of the library and the
    entropy from which an unseeded generator is made. *)
Record World : Type := mkWorld {
  global_generator : G;
  entropy : G;
  objects : list (@Env T G)
}.

(** What happens in the process: an environment is constructed, a method
    of the object with handle [h] is called, or code that holds no
    environment runs and leaves the two global sources in any state. *)
Inductive activity : Type :=
| Construct (fns : list (@TensorflowFunction T)) (dims0 seed0 duration0 : Z)
            (bounded : bool) (alg0 : Algorithm)
| Call (h : nat) (c : @call_t T)
| Elsewhere (global' entropy' : G).

Inductive result : Type :=
| Created (h : nat)
| Refused
| Answered (ts : option (@TimeStep T))
| Nothing.

(** The object with handle [h] takes the value [e]. *)
Fixpoint update_object (objs : list (@Env T G)) (h : nat) (e : @Env T G)
  : list Env :=
  match objs, h with
  | [], _ => []
  | _ :: rest, O => e :: rest
  | o :: rest, S h' => o :: update_object rest h' e
  end.

(** One activity.  The constructor makes the generator of the new object
    from the seed ([Generator.from_seed]) and the methods assign the
    attributes of their own object only: neither reads the global
    sources. *)
Definition exec (w : World) (a : activity) : World * result :=
  match a with
  | Construct fns dims0 seed0 duration0 bounded alg0 =>
      match init fns dims0 seed0 duration0 bounded alg0 with
      | Some e =>
          (mkWorld (global_generator w) (entropy w) (objects w ++ [e]),
           Created (length (objects w)))
      | None => (w, Refused)
      end
  | Call h c =>
      match nth_error (objects w) h with
      | Some e =>
          let o := do_call e c in
          (mkWorld (global_generator w) (entropy w)
                   (update_object (objects w) h (env_of o)),
           Answered (time_step_of o))
      | None => (w, Nothing)
      end
  | Elsewhere global' entropy' =>
      (mkWorld global' entropy' (objects w), Nothing)
  end.

(** The calls that a schedule makes on the object [h], in order. *)
Fixpoint calls_of (h : nat) (sched : list activity) : list (@call_t T) :=
  match sched with
  | [] => []
  | Call h' c :: rest =>
      if (h' =? h)%nat then c :: calls_of h rest else calls_of h rest
  | _ :: rest => calls_of h rest
  end.

(** What the calls on the object [h] return when the schedule runs in the
    process [w]. *)
Fixpoint results_of (h : nat) (w : World) (sched : list activity)
  : list (option (@TimeStep T)) :=
  match sched with
  | [] => []
  | a :: rest =>
      let '(w', r) := exec w a in
      match a, r with
      | Call h' _, Answered ts =>
          if (h' =? h)%nat then ts :: results_of h w' rest
          else results_of h w' rest
      | _, _ => results_of h w' rest
      end
  end.

Lemma nth_error_update_same (objs : list (@Env T G)) (h : nat) e e' :
  nth_error objs h = Some e ->
  nth_error (update_object objs h e') h = Some e'.
Proof.
  revert h. induction objs as [ | o objs IH ]; intros [ | h ] Hn;
    cbn in *; try discriminate; [ reflexivity | now apply IH ].
Qed.

Lemma nth_error_update_other (objs : list (@Env T G)) (h h' : nat) e' :
  h' <> h ->
  nth_error (update_object objs h' e') h = nth_error objs h.
Proof.
  revert h h'. induction objs as [ | o objs IH ]; intros h h' Hne.
  - now destruct h'.
  - destruct h' as [ | h' ]; destruct h as [ | h ]; cbn;
      try reflexivity; try congruence.
    apply IH. congruence.
Qed.

(** An object answers the calls made on it as it would alone, whatever
    else happens in the process. *)
Lemma results_of_object (h : nat) (sched : list activity) :
  forall (w : World) e,
    nth_error (objects w) h = Some e ->
    results_of h w sched = run e (calls_of h sched).
Proof.
  induction sched as [ | a sched IH ]; intros w e Hobj; [ reflexivity | ].
  destruct a as [ fns dims0 seed0 duration0 bounded alg0 | h' c | g' s' ].
  - cbn [results_of exec calls_of].
    destruct (init fns dims0 seed0 duration0 bounded alg0) as [ e' | ].
    + apply IH. cbn [objects]. rewrite nth_error_app1; [ exact Hobj | ].
      apply nth_error_Some. congruence.
    + now apply IH.
  - cbn [results_of exec calls_of].
    destruct (nth_error (objects w) h') as [ e' | ] eqn:Hobj'.
    + destruct (Nat.eqb_spec h' h) as [ Heq | Hne ].
      * subst h'. rewrite Hobj in Hobj'. injection Hobj' as <-.
        cbn [run]. f_equal. apply IH. cbn [objects].
        now apply nth_error_update_same with e.
      * apply IH. cbn [objects]. now rewrite nth_error_update_other.
    + destruct (Nat.eqb_spec h' h) as [ Heq | Hne ]; [ congruence | ].
      now apply IH.
  - cbn [results_of exec calls_of]. now apply IH.
Qed.

(** C4: in any two processes, whatever objects they hold and whatever
    state their global generator and entropy are in, constructing an
    environment with the same seed, generator algorithm, dimensionality and
    duration over catalogs whose functions agree one by one is refused in
    both or gives an object in both; and then any two schedules that make
    the same sequence of calls on the two objects, interleaved with any
    other activity (calls on other environments, new environments, draws
    from the global sources), get the same results from them, time step by
    time step (step type, reward, discount and observation) and failure by
    failure. *)
Theorem instance_determinism (w1 w2 : World) fns1 fns2 dims0 seed0
        duration0 bounded alg0 :
  Forall2 same_function fns1 fns2 ->
  match exec w1 (Construct fns1 dims0 seed0 duration0 bounded alg0),
        exec w2 (Construct fns2 dims0 seed0 duration0 bounded alg0) with
  | (w1', Created h1), (w2', Created h2) =>
      forall sched1 sched2,
        calls_of h1 sched1 = calls_of h2 sched2 ->
        results_of h1 w1' sched1 = results_of h2 w2' sched2
  | (_, Refused), (_, Refused) => True
  | _, _ => False
  end.
Proof.
  intros HF. cbn [exec].
  pose proof (same_construction_same_runs dims0 seed0 duration0 bounded
                                          alg0 HF) as Hsame.
  destruct (init fns1 dims0 seed0 duration0 bounded alg0) as [ e1 | ];
    destruct (init fns2 dims0 seed0 duration0 bounded alg0) as [ e2 | ];
    try contradiction; [ | exact I ].
  intros sched1 sched2 Hcalls.
  rewrite (results_of_object (length (objects w1)) sched1 _ (e := e1)).
  - rewrite (results_of_object (length (objects w2)) sched2 _ (e := e2)).
    + rewrite Hcalls. apply Hsame.
    + cbn [objects]. rewrite nth_error_app2, Nat.sub_diag; [ reflexivity | lia ].
  - cbn [objects]. rewrite nth_error_app2, Nat.sub_diag; [ reflexivity | lia ].
Qed.

End Instances.

(** * The baseline optimizers *)

Section Baselines.

Context {T : Type} {ST : Scalar T}.

Implicit Types (f : @TensorflowFunction T).

(** [m] is a minimum of the values [l]: one of them, below all of them. *)
Definition is_minimum (m : T) (l : list T) : Prop :=
  In m l /\ Forall (fun x => s_leb m x = true) l.

(** Every entry is at most the entry before it. *)
Definition non_increasing (l : list T) : Prop :=
  forall i d, (S i < length l)%nat ->
              s_leb (nth (S i) l d) (nth i l d) = true.

(** The position update of one iteration of [GD]. *)
Definition GD_move f (lr : T) (pos : list T) : list T :=
  clip_by_value (map2 s_sub pos (multiply (fst (grads_at f pos)) lr))
                (d_min (domain f)) (d_max (domain f)).

(** The objective values [function(pos)] that the first [n] iterations of
    [GD] compute, in order. *)
Fixpoint GD_evaluations f (lr : T) (pos : list T) (n : nat) : list T :=
  match n with
  | O => []
  | S n' =>
      let pos' := GD_move f lr pos in
      call f pos' :: GD_evaluations f lr pos' n'
  end.

(** The velocity and position updates of one iteration of [NAG]. *)
Definition NAG_velocity f (lr momentum : T) (pos velocity : list T)
  : list T :=
  let projected :=
    clip_by_value (map2 s_add pos (scale momentum velocity))
                  (d_min (domain f)) (d_max (domain f)) in
  map2 s_sub (scale momentum velocity)
       (multiply (fst (grads_at f projected)) lr).

Definition NAG_move f (lr momentum : T) (pos velocity : list T) : list T :=
  clip_by_value (map2 s_add pos (NAG_velocity f lr momentum pos velocity))
                (d_min (domain f)) (d_max (domain f)).

Fixpoint NAG_evaluations f (lr momentum : T) (pos velocity : list T)
         (n : nat) : list T :=
  match n with
  | O => []
  | S n' =>
      let velocity' := NAG_velocity f lr momentum pos velocity in
      let pos' := NAG_move f lr momentum pos velocity in
      call f pos' :: NAG_evaluations f lr momentum pos' velocity' n'
  end.

(** The best value so far along a list of values, starting from [b]. *)
Fixpoint running_best (b : T) (ys : list T) : list T :=
  match ys with
  | [] => []
  | y :: ys' => py_min y b :: running_best (py_min y b) ys'
  end.

Lemma py_min_le_l (a b : T) : s_leb (py_min a b) a = true.
Proof.
  unfold py_min. destruct (s_ltb b a) eqn:H.
  - now apply s_ltb_leb.
  - apply s_leb_refl.
Qed.

Lemma py_min_le_r (a b : T) : s_leb (py_min a b) b = true.
Proof.
  unfold py_min. destruct (s_ltb b a) eqn:H.
  - apply s_leb_refl.
  - unfold s_leb. now rewrite H.
Qed.

Lemma py_min_cases (a b : T) : py_min a b = a \/ py_min a b = b.
Proof. unfold py_min. destruct (s_ltb b a); auto. Qed.

(** No value of the list is a NaN. *)
Definition no_nan (l : list T) : Prop :=
  Forall (fun x => s_isnan x = false) l.

Lemma py_min_no_nan (a b : T) :
  s_isnan a = false -> s_isnan b = false -> s_isnan (py_min a b) = false.
Proof. intros Ha Hb. now destruct (py_min_cases a b) as [ -> | -> ]. Qed.

Lemma is_minimum_snoc (b y : T) (P : list T) :
  s_isnan b = false ->
  is_minimum b P -> is_minimum (py_min y b) (P ++ [y]).
Proof.
  intros Hb [Hin Hall]. split.
  - apply in_or_app. destruct (py_min_cases y b) as [ -> | -> ];
      [ right; now left | now left ].
  - apply Forall_app. split.
    + eapply Forall_impl; [ | exact Hall ]. cbn beta. intros x Hx.
      apply s_leb_trans with b; [ exact Hb | apply py_min_le_r | exact Hx ].
    + constructor; [ apply py_min_le_l | constructor ].
Qed.

Lemma length_running_best (ys : list T) :
  forall b, length (running_best b ys) = length ys.
Proof.
  induction ys as [ | y ys IH ]; intros b; cbn; [ reflexivity | ].
  now rewrite IH.
Qed.

Lemma running_best_minimum (ys : list T) :
  forall (b : T) (P : list T) (i : nat) (d : T),
    s_isnan b = false -> no_nan ys ->
    is_minimum b P -> (i < length ys)%nat ->
    is_minimum (nth i (running_best b ys) d) (P ++ firstn (S i) ys).
Proof.
  induction ys as [ | y ys IH ]; intros b P i d Hnb Hn Hb Hi; cbn in Hi;
    [ lia | ].
  inversion Hn as [ | ? ? Hny Hnys ]; subst.
  pose proof (is_minimum_snoc y Hnb Hb) as Hm.
  destruct i as [ | j ].
  - cbn. exact Hm.
  - cbn [running_best nth]. rewrite firstn_cons.
    replace (P ++ y :: firstn (S j) ys) with ((P ++ [y]) ++ firstn (S j) ys)
      by now rewrite <- app_assoc.
    apply IH; [ now apply py_min_no_nan | exact Hnys | exact Hm | lia ].
Qed.

Lemma running_best_no_nan (ys : list T) :
  forall b, s_isnan b = false -> no_nan ys -> no_nan (running_best b ys).
Proof.
  induction ys as [ | y ys IH ]; intros b Hb Hn; [ constructor | ].
  inversion Hn as [ | ? ? Hny Hnys ]; subst.
  cbn [running_best]. constructor; [ now apply py_min_no_nan | ].
  apply IH; [ now apply py_min_no_nan | exact Hnys ].
Qed.

Lemma running_best_non_increasing (ys : list T) :
  forall b, non_increasing (b :: running_best b ys).
Proof.
  induction ys as [ | y ys IH ]; intros b i d Hi; cbn in Hi; [ lia | ].
  destruct i as [ | j ].
  - cbn. apply py_min_le_r.
  - cbn [running_best]. cbn [running_best length] in Hi.
    change (nth (S (S j)) (b :: py_min y b :: running_best (py_min y b) ys) d)
      with (nth (S j) (py_min y b :: running_best (py_min y b) ys) d).
    change (nth (S j) (b :: py_min y b :: running_best (py_min y b) ys) d)
      with (nth j (py_min y b :: running_best (py_min y b) ys) d).
    apply IH. cbn [length]. lia.
Qed.

(** What the claim says of a best-value sequence [bs] against the values
    [evals] that were computed. *)
Definition best_so_far (bs evals : list T) : Prop :=
  length bs = length evals /\
  non_increasing bs /\
  forall i d, (i < length bs)%nat ->
              is_minimum (nth i bs d) (firstn (S i) evals).

Lemma running_best_spec (b : T) (ys : list T) :
  no_nan (b :: ys) ->
  best_so_far (b :: running_best b ys) (b :: ys) /\
  no_nan (b :: running_best b ys).
Proof.
  intros Hn. inversion Hn as [ | ? ? Hnb Hnys ]; subst.
  split; [ | constructor; [ exact Hnb | now apply running_best_no_nan ] ].
  split; [ | split ].
  - cbn. now rewrite length_running_best.
  - apply running_best_non_increasing.
  - intros i d Hi. cbn [length] in Hi. rewrite length_running_best in Hi.
    destruct i as [ | j ].
    + cbn. split; [ now left | ].
      constructor; [ apply s_leb_refl | constructor ].
    + cbn [nth]. rewrite firstn_cons.
      change (b :: firstn (S j) ys) with ([b] ++ firstn (S j) ys).
      apply running_best_minimum; [ exact Hnb | exact Hnys | | lia ].
      split; [ now left | ].
      constructor; [ apply s_leb_refl | constructor ].
Qed.

Lemma last_default (l : list T) (d d' : T) : l <> [] -> last l d = last l d'.
Proof.
  induction l as [ | a l IH ]; intros Hne; [ congruence | ].
  destruct l as [ | a' l ]; [ reflexivity | ].
  cbn [last] in *. apply IH. discriminate.
Qed.

Lemma length_range (n : Z) : length (range n) = Z.to_nat n.
Proof. unfold range. now rewrite length_map, length_seq. Qed.

(** The loop of [GD] appends the running best of its evaluations. *)
Lemma GD_loop f (lr : T) (ts : list Z) :
  forall (v : GD_vars) (d : T),
    gd_best_solutions v <> [] ->
    gd_best_solutions (fold_left (GD_body f lr) ts v)
    = gd_best_solutions v
        ++ running_best (last (gd_best_solutions v) d)
                        (GD_evaluations f lr (gd_pos v) (length ts)).
Proof.
  induction ts as [ | t ts IH ]; intros v d Hne.
  - cbn. now rewrite app_nil_r.
  - cbn [fold_left length GD_evaluations running_best].
    set (v1 := GD_body f lr v t).
    assert (Hpos : gd_pos v1 = GD_move f lr (gd_pos v)).
    { unfold v1, GD_body, GD_move.
      now destruct (grads_at f (gd_pos v)) as [grads y0]. }
    assert (Hbs : gd_best_solutions v1
                  = gd_best_solutions v
                      ++ [py_min (call f (GD_move f lr (gd_pos v)))
                                 (last (gd_best_solutions v) d)]).
    { unfold v1, GD_body, GD_move.
      destruct (grads_at f (gd_pos v)) as [grads y0]. cbn.
      now rewrite (last_default _ d Hne). }
    rewrite (IH v1 d) by (rewrite Hbs; now destruct (gd_best_solutions v)).
    rewrite Hpos, Hbs, last_last, <- app_assoc. reflexivity.
Qed.

(** The loop of [NAG] does the same along its own positions. *)
Lemma NAG_loop f (lr momentum : T) (ts : list Z) :
  forall (v : NAG_vars) (d : T),
    nag_best_solutions v <> [] ->
    nag_best_solutions (fold_left (NAG_body f lr momentum) ts v)
    = nag_best_solutions v
        ++ running_best (last (nag_best_solutions v) d)
                        (NAG_evaluations f lr momentum (nag_pos v)
                                         (nag_velocity v) (length ts)).
Proof.
  induction ts as [ | t ts IH ]; intros v d Hne.
  - cbn. now rewrite app_nil_r.
  - cbn [fold_left length NAG_evaluations running_best].
    set (v1 := NAG_body f lr momentum v t).
    assert (Hvel : nag_velocity v1
                   = NAG_velocity f lr momentum (nag_pos v) (nag_velocity v)).
    { unfold v1, NAG_body, NAG_velocity.
      now destruct (grads_at f _) as [grads y0]. }
    assert (Hpos : nag_pos v1
                   = NAG_move f lr momentum (nag_pos v) (nag_velocity v)).
    { unfold v1, NAG_body, NAG_move, NAG_velocity.
      now destruct (grads_at f _) as [grads y0]. }
    assert (Hbs : nag_best_solutions v1
                  = nag_best_solutions v
                      ++ [py_min (call f (NAG_move f lr momentum (nag_pos v)
                                                   (nag_velocity v)))
                                 (last (nag_best_solutions v) d)]).
    { unfold v1, NAG_body, NAG_move, NAG_velocity.
      destruct (grads_at f _) as [grads y0]. cbn.
      now rewrite (last_default _ d Hne). }
    rewrite (IH v1 d) by (rewrite Hbs; now destruct (nag_best_solutions v)).
    rewrite Hpos, Hvel, Hbs, last_last, <- app_assoc. reflexivity.
Qed.

(** C9, as the code has it: when no objective value computed along the
    run is a NaN, the best-value sequence that [GD] returns has one entry per
    evaluation (the value at the starting position, then one per
    iteration), never increases from an entry to the next, its entry [i] is
    a minimum of the evaluations up to iteration [i], and none of its
    entries is a NaN; the same holds of [NAG]. *)
Theorem best_values_running_minimum f (pos : list T) (steps : Z) :
  (no_nan (call f pos
             :: GD_evaluations f
                  (s_lit (dict_get gd_lrs (name f) (1 # 100)%Q))
                  pos (Z.to_nat steps)) ->
   best_so_far
     (fst (GD f pos steps))
     (call f pos
        :: GD_evaluations f (s_lit (dict_get gd_lrs (name f) (1 # 100)%Q))
                          pos (Z.to_nat steps)) /\
   no_nan (fst (GD f pos steps))) /\
  (no_nan (call f pos
             :: NAG_evaluations
                  f
                  (s_lit (fst (dict_get nag_params (name f)
                                        (1 # 100, 8 # 10)%Q)))
                  (s_lit (snd (dict_get nag_params (name f)
                                        (1 # 100, 8 # 10)%Q)))
                  pos (zeros pos) (Z.to_nat steps)) ->
   best_so_far
     (fst (NAG f pos steps))
     (call f pos
        :: NAG_evaluations
             f
             (s_lit (fst (dict_get nag_params (name f) (1 # 100, 8 # 10)%Q)))
             (s_lit (snd (dict_get nag_params (name f) (1 # 100, 8 # 10)%Q)))
             pos (zeros pos) (Z.to_nat steps)) /\
   no_nan (fst (NAG f pos steps))).
Proof.
  split.
  - unfold GD. cbn [fst].
    rewrite (GD_loop f _ (range steps) (mkGD pos [call f pos] 0) (call f pos))
      by discriminate.
    cbn [gd_best_solutions gd_pos last app]. rewrite length_range.
    apply running_best_spec.
  - unfold NAG.
    destruct (dict_get nag_params (name f) (1 # 100, 8 # 10)%Q)
      as [lr momentum].
    cbn [fst snd].
    rewrite (NAG_loop f _ _ (range steps)
                      (mkNAG pos (zeros pos) [call f pos] 0) (call f pos))
      by discriminate.
    cbn [nag_best_solutions nag_pos nag_velocity last app].
    rewrite length_range. apply running_best_spec.
Qed.

End Baselines.

(** * The properties on concrete inputs

    The scenario of the specification on the fixed-point model: the
    catalog holds the sphere function on [[-5, 5]], two dimensions, seed 42;
    values are in thousandths. *)

Module Scenario.

Import ZModel.

(** What the constructor builds for durations 3 and 1. *)
Definition env3 : @Env Z stream :=
  mkEnv [sphere] 0 (-5000) 5000 2 1 true 42 PHILOX (42, 3) false 0 3
        [-363; 1981].

Definition env1 : @Env Z stream :=
  mkEnv [sphere] 0 (-5000) 5000 2 1 true 42 PHILOX (42, 3) false 0 1
        [-363; 1981].

(** The sphere function with its sum written the other way round. *)
Definition sphere_alt : TensorflowFunction :=
  mkFunction "Sphere" (mkDomain (-5000) 5000)
             (fun x => fold_right (fun a acc => acc + z_mul a a) 0 x)
             (fun x => (map (fun a => a * 2) x,
                        fold_right (fun a acc => acc + z_mul a a) 0 x)).

Lemma env3_constructed : init [sphere] 2 42 3 true PHILOX = Some env3.
Proof. reflexivity. Defined.

Lemma env1_constructed : init [sphere] 2 42 1 true PHILOX = Some env1.
Proof. reflexivity. Defined.

Lemma env3_reachable : reachable env3.
Proof. exact (reachable_init _ _ _ _ _ _ env3_constructed). Defined.

Lemma env1_reachable : reachable env1.
Proof. exact (reachable_init _ _ _ _ _ _ env1_constructed). Defined.

Lemma sphere_alt_same : same_function sphere sphere_alt.
Proof.
  assert (Hcall : forall x : list Z, call sphere x = call sphere_alt x).
  { intros x. unfold sphere, sphere_alt. cbn [call].
    induction x as [ | a x IH ]; cbn [fold_right]; [ reflexivity | ].
    rewrite IH. lia. }
  repeat split; try exact Hcall.
  intros x. unfold sphere, sphere_alt in *. cbn [grads_at call] in *.
  f_equal; [ | exact (Hcall x) ].
  apply map_ext. intros a. lia.
Qed.

(** The scenario of the specification: FIRST with reward 0 after the
    reset, then MID, MID, LAST with the negated sphere value under zero
    displacement, the position unchanged. *)
Example scenario_zero_displacement :
  map (option_map (fun ts => (step_type ts, reward ts, observation ts)))
      (run env3 [CReset; CStep [0; 0]; CStep [0; 0]; CStep [0; 0]])
  = [Some (FIRST, 0, [-3332; -988]); Some (MID, -12078, [-3332; -988]);
     Some (MID, -12078, [-3332; -988]); Some (LAST, -12078, [-3332; -988])].
Proof. reflexivity. Qed.

Lemma episode_length_witness :
  reachable env3 /\ duration env3 = 3 /\
  exists ts0 e0,
    reset env3 = Returned ts0 e0 /\ step_type ts0 = FIRST /\
    map (option_map step_type)
        (run e0 (map CStep [[0; 0]; [1000; -1000]; [9000; 9000]]))
    = [Some MID; Some MID; Some LAST] /\
    exists ts e',
      step (after e0 (map CStep [[0; 0]; [1000; -1000]; [9000; 9000]]))
           [7; 7]
      = Returned ts e' /\ step_type ts = FIRST.
Proof.
  split; [ exact env3_reachable | ]. split; [ reflexivity | ].
  destruct (@episode_length _ _ _ _ env3 3 env3_reachable eq_refl
                            ltac:(lia))
    as (ts0 & e0 & Hreset & Hty & Hacts).
  exists ts0, e0. split; [ exact Hreset | ]. split; [ exact Hty | ].
  destruct (Hacts [[0; 0]; [1000; -1000]; [9000; 9000]] eq_refl)
    as (Hrun & _ & Hnext).
  { repeat (constructor; [ reflexivity | ]). constructor. }
  split; [ exact Hrun | apply Hnext ].
Defined.

Lemma reward_negated_objective_witness :
  exists ts e',
    do_call env3 (CStep [1000; -1000]) = Returned ts e' /\
    observation ts = [637; 981] /\ step_type ts <> FIRST /\
    exists f,
      nth_error (functions e') (Z.to_nat (fn_index e')) = Some f /\
      reward ts = negative (call f (observation ts)).
Proof.
  destruct (do_call env3 (CStep [1000; -1000])) as [ ts e' | e' ] eqn:Hcall;
    [ | vm_compute in Hcall; discriminate ].
  exists ts, e'. split; [ reflexivity | ].
  assert (Hobs : observation ts = [637; 981]).
  { vm_compute in Hcall. now injection Hcall as <- _. }
  assert (Hty : step_type ts <> FIRST).
  { vm_compute in Hcall. injection Hcall as <- _. discriminate. }
  split; [ exact Hobs | ]. split; [ exact Hty | ].
  exact (proj2 (proj2 (proj2
           (reward_negated_objective (CStep [1000; -1000]) env3_reachable
                                     Hcall)))
           Hty).
Defined.

Lemma position_within_domain_witness :
  s_leb (domain_min env3) (domain_max env3) = true /\
  in_domain env3 (state env3) /\
  exists ts e',
    step env3 [9000; -9000] = Returned ts e' /\
    state e' = clip_by_value (map2 s_add (state env3) [9000; -9000])
                             (domain_min env3) (domain_max env3) /\
    observation ts = state e'.
Proof.
  split; [ reflexivity | ].
  destruct (position_within_domain env3_reachable eq_refl)
    as (Hin & _ & Hstep).
  split; [ exact Hin | ].
  exact (Hstep [9000; -9000] eq_refl eq_refl).
Defined.

(** Two processes: an empty one, and one that already holds an
    environment and whose global sources are in another state. *)
Definition process1 : @World Z stream := mkWorld (0, 0) (0, 0) [].

Definition process2 : @World Z stream := mkWorld (7, 7) (9, 9) [env1].

Lemma instance_determinism_witness :
  Forall2 same_function [sphere] [sphere_alt] /\
  match exec process1 (Construct [sphere] 2 42 3 true PHILOX),
        exec process2 (Construct [sphere_alt] 2 42 3 true PHILOX) with
  | (w1', Created h1), (w2', Created h2) =>
      forall sched1 sched2,
        calls_of h1 sched1 = calls_of h2 sched2 ->
        results_of h1 w1' sched1 = results_of h2 w2' sched2
  | (_, Refused), (_, Refused) => True
  | _, _ => False
  end.
Proof.
  assert (HF : Forall2 same_function [sphere] [sphere_alt]).
  { constructor; [ exact sphere_alt_same | constructor ]. }
  split; [ exact HF | ].
  exact (instance_determinism process1 process2 2 42 3 true PHILOX HF).
Defined.

(** The two objects are answered alike although the second process also
    steps and resets its older environment, draws from its global sources
    and constructs a third environment in between. *)
Example interleaved_schedules :
  let sched1 :=
    [Call 0 CReset; Call 0 (CStep [1000; -1000]); Call 0 (CStep [0; 0])] in
  let sched2 :=
    [Call 0 (CStep [0; 0]); Call 1 CReset; Elsewhere (1, 1) (2, 2);
     Call 1 (CStep [1000; -1000]);
     Construct [absolute] 2 5 9 true PHILOX; Call 0 CReset;
     Call 2 (CStep [500; 500]); Call 1 (CStep [0; 0])] in
  calls_of 0 sched1 = calls_of 1 sched2 /\
  map (option_map (fun ts => (step_type ts, reward ts, observation ts)))
      (results_of 0 (fst (exec process1
                               (Construct [sphere] 2 42 3 true PHILOX)))
                  sched1)
  = [Some (FIRST, 0, [-3332; -988]); Some (MID, -9390, [-2332; -1988]);
     Some (MID, -9390, [-2332; -1988])] /\
  map (option_map (fun ts => (step_type ts, reward ts, observation ts)))
      (results_of 1 (fst (exec process2
                               (Construct [sphere_alt] 2 42 3 true PHILOX)))
                  sched2)
  = [Some (FIRST, 0, [-3332; -988]); Some (MID, -9390, [-2332; -1988]);
     Some (MID, -9390, [-2332; -1988])].
Proof. cbn zeta. split; [ reflexivity | ]. split; vm_compute; reflexivity. Qed.

(** [env1] after its only step: the episode has ended. *)
Definition env1_ended : @Env Z stream := env_of (do_call env1 (CStep [0; 0])).

Lemma env1_ended_reachable : reachable env1_ended.
Proof. exact (reachable_call (CStep [0; 0]) env1_reachable). Defined.

Lemma step_after_end_resets_witness :
  episode_ended env1_ended = true /\
  step env1_ended [1; 2; 3] = reset env1_ended /\
  exists ts e',
    step env1_ended [1; 2; 3] = Returned ts e' /\
    step_type ts = FIRST /\ steps_taken e' = 0 /\
    episode_ended e' = false.
Proof.
  split; [ reflexivity | ].
  destruct (step_after_end_resets [1; 2; 3] env1_ended_reachable eq_refl)
    as (Heq & ts & e' & Hstep & Hty & _ & _ & Hs & He & _).
  split; [ exact Heq | ].
  exists ts, e'. repeat split; assumption.
Defined.

(** C6, the claim as stated fails: the only step of an episode of duration
    1 returns a LAST time step whose discount is 1.0. *)
Lemma discount_counterexample :
  reachable env1 /\
  exists ts e',
    step env1 [0; 0] = Returned ts e' /\
    step_type ts = LAST /\ discount ts = s_lit 1%Q.
Proof.
  split; [ exact env1_reachable | ].
  eexists. eexists. split; [ vm_compute; reflexivity | ].
  split; reflexivity.
Qed.

Lemma discount_always_one_witness :
  exists ts e',
    do_call env1 (CStep [0; 0]) = Returned ts e' /\
    step_type ts = LAST /\ discount ts = s_lit 1%Q.
Proof.
  destruct (do_call env1 (CStep [0; 0])) as [ ts e' | e' ] eqn:Hcall;
    [ | vm_compute in Hcall; discriminate ].
  exists ts, e'. split; [ reflexivity | ]. split.
  - vm_compute in Hcall. now injection Hcall as <- _.
  - exact (discount_always_one _ _ Hcall).
Defined.

(** C7, the claim as stated fails: catalogs whose domains differ, a zero
    or negative duration and a zero dimensionality are all accepted, and the
    environments they give answer calls. *)
Lemma init_unchecked_counterexample :
  (domain sphere <> domain absolute /\
   exists e, init [sphere; absolute] 2 42 3 true PHILOX = Some e /\
             map (option_map step_type) (run e [CCurrent; CStep [0; 0]])
             = [Some FIRST; Some MID]) /\
  (exists e, init [sphere] 2 42 0 true PHILOX = Some e /\
             map (option_map step_type) (run e [CCurrent; CStep [0; 0]])
             = [Some FIRST; Some LAST]) /\
  (exists e, init [sphere] 2 42 (-7) true PHILOX = Some e /\
             map (option_map step_type) (run e [CCurrent; CStep [0; 0]])
             = [Some FIRST; Some LAST]) /\
  (exists e, init [sphere] 0 42 3 true PHILOX = Some e /\
             map (option_map step_type) (run e [CCurrent; CStep []])
             = [Some FIRST; Some MID]).
Proof.
  split; [ split; [ discriminate | ] | ].
  - eexists. split; [ vm_compute; reflexivity | reflexivity ].
  - repeat split; eexists;
      (split; [ vm_compute; reflexivity | reflexivity ]).
Qed.

Lemma init_fails_iff_witness :
  init (@nil (@TensorflowFunction Z)) 2 42 3 true PHILOX
  = (None : option (@Env Z stream)).
Proof.
  apply (proj1 (init_fails_iff (G := stream) [] 2 42 3 true PHILOX)).
  left. reflexivity.
Defined.

(** C8, the claim as stated fails twice: in two dimensions an action of
    length 1 is broadcast, the step returns and moves the position; and
    once the episode has ended an action of length 3 is ignored, the step
    returns a FIRST time step and redraws the state from the stream. *)
Lemma ill_shaped_counterexample :
  (dims env3 = 2 /\ episode_ended env3 = false /\
   exists ts e',
     step env3 [-1000] = Returned ts e' /\
     state env3 = [-363; 1981] /\ state e' = [-1363; 981] /\
     steps_taken env3 = 0 /\ steps_taken e' = 1) /\
  (dims env1_ended = 2 /\ episode_ended env1_ended = true /\
   exists ts e',
     step env1_ended [1; 2; 3] = Returned ts e' /\
     step_type ts = FIRST /\
     state env1_ended = [-363; 1981] /\ state e' = [-3332; -988] /\
     rng env1_ended = (42, 3) /\ rng e' = (42, 6)).
Proof.
  split.
  - split; [ reflexivity | ]. split; [ reflexivity | ].
    eexists. eexists. split; [ vm_compute; reflexivity | ].
    repeat split.
  - split; [ reflexivity | ]. split; [ reflexivity | ].
    eexists. eexists. split; [ vm_compute; reflexivity | ].
    repeat split.
Qed.

Lemma ill_shaped_action_raises_witness :
  episode_ended env3 = false /\ step env3 [1; 2; 3] = Raised env3.
Proof.
  split; [ reflexivity | ].
  apply (ill_shaped_action_raises [1; 2; 3] env3_reachable eq_refl).
  - cbn. lia.
  - cbn. lia.
Defined.

Lemma init_ready_witness :
  init [sphere] 2 42 3 true PHILOX = Some env3 /\
  steps_taken env3 = 0 /\ episode_ended env3 = false /\
  in_domain env3 (state env3) /\
  exists ts,
    current_time_step env3 = Some ts /\
    step_type ts = FIRST /\ reward ts = s_lit 0%Q /\
    observation ts = state env3.
Proof.
  split; [ reflexivity | ].
  destruct (init_ready _ _ _ _ _ _ env3_constructed)
    as (Hs & He & _ & _ & _ & Hin & Hts).
  split; [ exact Hs | ]. split; [ exact He | ].
  split; [ exact (Hin eq_refl) | exact Hts ].
Defined.

End Scenario.

(** * More on the environment: invariants, failures and edge cases *)

Section EnvironmentInvariants.

Context {T : Type} {ST : Scalar T} {G : Type} {GT : @Generator T ST G}.

Implicit Types (e : @Env T G) (ts : @TimeStep T).

Lemma clip_by_value_id (t : list T) (lo hi : T) :
  Forall (within lo hi) t -> clip_by_value t lo hi = t.
Proof.
  unfold clip_by_value. induction 1 as [ | x t [Hlo Hhi] _ IH ];
    [ reflexivity | ].
  cbn [map]. rewrite IH. f_equal.
  unfold maximum, minimum, s_leb in *.
  apply negb_true_iff in Hlo, Hhi. now rewrite Hhi, Hlo.
Qed.

Lemma tensor_add_singleton (x : list T) (b : T) :
  tensor_add x [b] = Some (map (fun a => s_add a b) x).
Proof.
  unfold tensor_add. destruct x as [ | a [ | a' x ] ]; reflexivity.
Qed.

Lemma tensor_add_none (x y : list T) :
  tensor_add x y = None -> length y <> length x /\ length y <> 1%nat.
Proof.
  unfold tensor_add. destruct (Nat.eqb_spec (length x) (length y)) as [ | Hne ];
    [ discriminate | ].
  destruct x as [ | a [ | a' x ] ]; destruct y as [ | b [ | b' y ] ];
    try discriminate; intros _; cbn [length] in *; split; congruence.
Qed.

(** The check of [tf.case(..., exclusive=True)] in [_current_time_step]
    fails in any state where the step counter is 0 and the episode-ended
    flag is set; no reachable environment is in such a state, so that
    [current_time_step] always returns, with the step type FIRST at counter
    0, LAST when the flag is set, MID otherwise. *)
Theorem current_time_step_never_raises :
  (forall e,
      steps_taken e <= 0 -> episode_ended e = true ->
      current_time_step e = None) /\
  (forall e,
      reachable e ->
      ~ (steps_taken e <= 0 /\ episode_ended e = true) /\
      exists ts,
        current_time_step e = Some ts /\
        step_type ts = (if steps_taken e =? 0 then FIRST
                        else if episode_ended e then LAST else MID)).
Proof.
  split.
  - intros e Hs He. unfold current_time_step, _current_time_step, less_equal.
    apply Z.leb_le in Hs. now rewrite Hs, He.
  - intros e Hr. pose proof (reachable_wf Hr) as W. split.
    + intros [Hs He]. apply (wf_ended W) in He. lia.
    + destruct (current_time_step_wf W) as (ts & Hts & Hty & _).
      exists ts. split; [ exact Hts | exact Hty ].
Qed.

(** On a reachable environment [reset] always returns, and [step] raises
    only while the episode is running and the action has neither the
    length of the position nor length 1; when it raises, no variable has
    been assigned. *)
Theorem step_raises_only_ill_shaped e :
  reachable e ->
  (exists ts e', reset e = Returned ts e') /\
  (forall a e',
      step e a = Raised e' ->
      e' = e /\ episode_ended e = false /\
      length a <> Z.to_nat (dims e) /\ length a <> 1%nat).
Proof.
  intros Hr. pose proof (reachable_wf Hr) as W. split.
  { destruct (reset_returns W) as (ts & Hreset & _). eauto. }
  intros a e' Hstep. destruct (episode_ended e) eqn:He.
  - rewrite (step_ended e a He) in Hstep.
    destruct (reset_returns W) as (ts & Hreset & _). congruence.
  - rewrite (step_not_ended e a He) in Hstep.
    destruct (tensor_add (state e) a) as [ sum | ] eqn:Hsum.
    + cbn zeta in Hstep. rewrite length_clip_by_value in Hstep.
      destruct (Nat.eqb_spec (length sum) (length (state e))) as [ Hl | Hl ].
      * assert (Hp : length (clip_by_value sum (domain_min e) (domain_max e))
                     = length (state e))
          by now rewrite length_clip_by_value.
        destruct (stepped_state_wf _ W He Hp) as (W' & _).
        destruct (current_time_step_wf W') as (ts & Hts & _).
        rewrite Hts in Hstep. discriminate.
      * injection Hstep as <-.
        split; [ reflexivity | ]. split; [ reflexivity | ].
        pose proof (wf_state W) as Hst.
        destruct (tensor_add_length _ _ Hsum) as [ Hs | [Hs1 Hs2] ];
          [ contradiction | ].
        split; intros Ha; apply Hl; congruence.
    + injection Hstep as <-.
      split; [ reflexivity | ]. split; [ reflexivity | ].
      destruct (tensor_add_none _ _ Hsum) as [Hne H1].
      split; [ now rewrite <- (wf_state W) | exact H1 ].
Qed.

(** The step counter of a reachable environment stays between 0 and
    [max duration 1], the episode-ended flag says exactly that the counter
    is positive and has reached the duration, and the int32 increment of a
    running episode never wraps around. *)
Theorem step_counter_invariant e :
  reachable e ->
  0 <= steps_taken e <= Z.max (duration e) 1 /\
  (episode_ended e = true <->
   1 <= steps_taken e /\ duration e <= steps_taken e) /\
  (episode_ended e = false ->
   wrap32 (steps_taken e + 1) = steps_taken e + 1).
Proof.
  intros Hr. pose proof (reachable_wf Hr) as W.
  pose proof (wf_steps W) as Hs. pose proof (wf_ended W) as He.
  pose proof (wf_duration W) as Hd.
  split; [ exact Hs | ]. split; [ exact He | ].
  intros Hf. apply wrap32_small.
  destruct (Z_lt_le_dec (steps_taken e) (duration e)); [ lia | ].
  destruct (Z.eq_dec (steps_taken e) 0); [ lia | ].
  assert (episode_ended e = true) by (apply He; lia). congruence.
Qed.

(** The function index of a reachable environment is an index of the
    catalog, so [tf.switch_case] never takes its default branch: it
    evaluates the catalog entry at that index. *)
Theorem active_function_valid e (x : list T) :
  reachable e ->
  n_functions e = Z.of_nat (length (functions e)) /\
  0 <= fn_index e < Z.of_nat (length (functions e)) /\
  exists f,
    nth_error (functions e) (Z.to_nat (fn_index e)) = Some f /\
    switch_case (fn_index e) (fn_evaluator e x) = Some (call f x).
Proof.
  intros Hr. pose proof (reachable_wf Hr) as W.
  pose proof (wf_fn_index W) as Hi. pose proof (wf_n_functions W) as Hn.
  split; [ exact Hn | ]. split; [ lia | ].
  destruct (active_function W) as [f Hf]. exists f.
  split; [ exact Hf | ]. apply switch_case_active; [ lia | exact Hf ].
Qed.

(** Every time step returned on a reachable environment observes a vector
    of the configured dimensionality, the shape of the observation spec. *)
Theorem observation_shape e c ts e' :
  reachable e -> do_call e c = Returned ts e' ->
  length (observation ts) = Z.to_nat (dims e) /\ dims e' = dims e.
Proof.
  intros Hr Hcall.
  assert (He' : e' = env_of (do_call e c)) by now rewrite Hcall.
  assert (W' : wf e').
  { rewrite He'. apply do_call_wf. now apply reachable_wf. }
  destruct (do_call_same_config e c) as (_ & _ & _ & Hdims & _).
  rewrite <- He' in Hdims.
  apply do_call_returned in Hcall.
  destruct (current_time_step_wf W') as (ts0 & Hts & _ & _ & Ho & _).
  rewrite Hcall in Hts. injection Hts as <-.
  split; [ | exact Hdims ]. now rewrite Ho, (wf_state W'), Hdims.
Qed.

(** No call assigns the configuration; the active function and the random
    stream change only in a reset: [current_time_step] and a [step] of a
    running episode leave both as they are, whatever the action. *)
Theorem task_changes_only_on_reset e c :
  same_config e (env_of (do_call e c)) /\
  ((c = CCurrent \/ exists a, c = CStep a /\ episode_ended e = false) ->
   fn_index (env_of (do_call e c)) = fn_index e /\
   rng (env_of (do_call e c)) = rng e).
Proof.
  split; [ apply do_call_same_config | ].
  intros [ -> | (a & -> & He) ].
  - cbn [do_call]. now destruct (current_time_step e).
  - destruct (do_call_env e (CStep a))
      as [ -> | [ Hreset | (_ & a' & sum & _ & _ & _ & ->) ] ];
      [ now split | | now split ].
    cbn [do_call] in *. rewrite (step_not_ended e a He) in *.
    destruct (tensor_add (state e) a) as [ sum | ]; [ | now split ].
    cbn zeta. destruct (_ =? _)%nat; [ | now split ].
    now destruct (current_time_step _).
Qed.

(** An action of length 1 is not refused: on a running episode it is
    added to every coordinate of the position before clipping. *)
Theorem step_broadcasts_scalar_action e (b : T) :
  reachable e -> episode_ended e = false ->
  exists ts e',
    step e [b] = Returned ts e' /\
    state e' = clip_by_value (map (fun x => s_add x b) (state e))
                             (domain_min e) (domain_max e) /\
    observation ts = state e'.
Proof.
  intros Hr He. pose proof (reachable_wf Hr) as W.
  pose proof (tensor_add_singleton (state e) b) as Hsum.
  assert (Hl : length (map (fun x => s_add x b) (state e))
               = length (state e)) by apply length_map.
  destruct (step_returns [b] W He Hsum Hl) as (ts & Hstep & _ & Ho).
  eexists. eexists. split; [ exact Hstep | ].
  split; [ reflexivity | exact Ho ].
Qed.

(** With a duration of 1 or less, zero and negative durations included,
    every episode has exactly one step: the first step after a reset
    returns LAST and sets the episode-ended flag. *)
Theorem short_duration_single_step e (a : list T) :
  reachable e -> duration e <= 1 -> length a = Z.to_nat (dims e) ->
  exists ts0 e0 ts1 e1,
    reset e = Returned ts0 e0 /\ step e0 a = Returned ts1 e1 /\
    step_type ts1 = LAST /\ steps_taken e1 = 1 /\
    episode_ended e1 = true.
Proof.
  intros Hr Hd Ha. pose proof (reachable_wf Hr) as W.
  destruct (reset_returns W) as (ts0 & Hreset & _).
  pose proof (reset_state_wf W) as W0.
  assert (Ha0 : well_shaped (reset_state e) a) by exact Ha.
  destruct (step_running W0 eq_refl Ha0)
    as (ts1 & e1 & Hstep & _ & _ & Hs & He & Hty).
  assert (Hle : (duration (reset_state e) <=? steps_taken (reset_state e) + 1)
                = true).
  { apply Z.leb_le. cbn. lia. }
  rewrite Hle in He, Hty.
  exists ts0, (reset_state e), ts1, e1.
  repeat split; auto.
Qed.

(** When the sum of the position and the action stays in the box, the
    step moves the position by exactly the action: clipping changes
    nothing. *)
Theorem step_inside_domain_exact e (a : list T) :
  reachable e -> episode_ended e = false ->
  length a = Z.to_nat (dims e) ->
  in_domain e (map2 s_add (state e) a) ->
  exists ts e',
    step e a = Returned ts e' /\
    state e' = map2 s_add (state e) a /\
    observation ts = map2 s_add (state e) a.
Proof.
  intros Hr He Ha Hin. pose proof (reachable_wf Hr) as W.
  assert (Hlen : length a = length (state e)) by now rewrite (wf_state W).
  pose proof (tensor_add_same_shape (state e) a Hlen) as Hsum.
  assert (Hl : length (map2 s_add (state e) a) = length (state e)).
  { apply length_map2. now symmetry. }
  destruct (step_returns a W He Hsum Hl) as (ts & Hstep & _ & Ho).
  rewrite (clip_by_value_id Hin) in Hstep, Ho.
  eexists. eexists. split; [ exact Hstep | ].
  split; [ reflexivity | exact Ho ].
Qed.

(** The step type that [step] returns on a reachable environment: FIRST
    exactly when the episode had ended (the implicit reset), otherwise LAST
    when the incremented counter reaches the duration and MID when it does
    not; the counter is 0 after the former and one more after the latter. *)
Theorem step_type_of_step e (a : list T) ts e' :
  reachable e -> step e a = Returned ts e' ->
  step_type ts = (if episode_ended e then FIRST
                  else if duration e <=? steps_taken e + 1 then LAST
                       else MID) /\
  steps_taken e' = (if episode_ended e then 0 else steps_taken e + 1).
Proof.
  intros Hr Hstep. pose proof (reachable_wf Hr) as W.
  destruct (episode_ended e) eqn:He.
  - rewrite (step_ended e a He) in Hstep.
    destruct (reset_returns W) as (ts0 & Hreset & Hty & _).
    rewrite Hreset in Hstep. injection Hstep as <- <-.
    split; [ exact Hty | reflexivity ].
  - pose proof Hstep as Hstep'.
    rewrite (step_not_ended e a He) in Hstep'.
    destruct (tensor_add (state e) a) as [ sum | ] eqn:Hsum;
      [ | discriminate ].
    cbn zeta in Hstep'. rewrite length_clip_by_value in Hstep'.
    destruct (Nat.eqb_spec (length sum) (length (state e))) as [ Hl | Hl ];
      [ | discriminate ].
    destruct (step_returns a W He Hsum Hl) as (ts0 & Hret & Hty & _).
    rewrite Hret in Hstep. injection Hstep as <- <-.
    split; [ exact Hty | ].
    assert (Hp : length (clip_by_value sum (domain_min e) (domain_max e))
                 = length (state e))
      by now rewrite length_clip_by_value.
    now destruct (stepped_state_wf _ W He Hp) as (_ & Hs & _).
Qed.

End EnvironmentInvariants.

(** * More on the baselines: the reported iteration, the iterates, the
      parameter tables *)

Section BaselineIterates.

Context {T : Type} {ST : Scalar T}.

Implicit Types (f : @TensorflowFunction T).

(** [best_it] along a list of values [ys] computed at the loop indices
    [ts], starting from the best value [b] and the index [it]. *)
Fixpoint running_it (b : T) (ys : list T) (ts : list Z) (it : Z) : Z :=
  match ys, ts with
  | y :: ys', t :: ts' =>
      running_it (py_min y b) ys' ts' (if s_ltb y b then t else it)
  | _, _ => it
  end.

Lemma GD_loop_it f (lr : T) (ts : list Z) :
  forall (v : GD_vars) (d : T),
    gd_best_solutions v <> [] ->
    gd_best_it (fold_left (GD_body f lr) ts v)
    = running_it (last (gd_best_solutions v) d)
                 (GD_evaluations f lr (gd_pos v) (length ts)) ts
                 (gd_best_it v).
Proof.
  induction ts as [ | t ts IH ]; intros v d Hne; [ reflexivity | ].
  cbn [fold_left length GD_evaluations running_it].
  set (v1 := GD_body f lr v t).
  assert (Hpos : gd_pos v1 = GD_move f lr (gd_pos v)).
  { unfold v1, GD_body, GD_move.
    now destruct (grads_at f (gd_pos v)) as [grads y0]. }
  assert (Hbs : gd_best_solutions v1
                = gd_best_solutions v
                    ++ [py_min (call f (GD_move f lr (gd_pos v)))
                               (last (gd_best_solutions v) d)]).
  { unfold v1, GD_body, GD_move.
    destruct (grads_at f (gd_pos v)) as [grads y0]. cbn.
    now rewrite (last_default _ d Hne). }
  assert (Hit : gd_best_it v1
                = if s_ltb (call f (GD_move f lr (gd_pos v)))
                           (last (gd_best_solutions v) d)
                  then t else gd_best_it v).
  { unfold v1, GD_body, GD_move.
    destruct (grads_at f (gd_pos v)) as [grads y0]. cbn.
    now rewrite (last_default _ d Hne). }
  rewrite (IH v1 d) by (rewrite Hbs; now destruct (gd_best_solutions v)).
  now rewrite Hpos, Hbs, Hit, last_last.
Qed.

Lemma NAG_loop_it f (lr momentum : T) (ts : list Z) :
  forall (v : NAG_vars) (d : T),
    nag_best_solutions v <> [] ->
    nag_best_it (fold_left (NAG_body f lr momentum) ts v)
    = running_it (last (nag_best_solutions v) d)
                 (NAG_evaluations f lr momentum (nag_pos v)
                                  (nag_velocity v) (length ts)) ts
                 (nag_best_it v).
Proof.
  induction ts as [ | t ts IH ]; intros v d Hne; [ reflexivity | ].
  cbn [fold_left length NAG_evaluations running_it].
  set (v1 := NAG_body f lr momentum v t).
  assert (Hvel : nag_velocity v1
                 = NAG_velocity f lr momentum (nag_pos v) (nag_velocity v)).
  { unfold v1, NAG_body, NAG_velocity.
    now destruct (grads_at f _) as [grads y0]. }
  assert (Hpos : nag_pos v1
                 = NAG_move f lr momentum (nag_pos v) (nag_velocity v)).
  { unfold v1, NAG_body, NAG_move, NAG_velocity.
    now destruct (grads_at f _) as [grads y0]. }
  assert (Hbs : nag_best_solutions v1
                = nag_best_solutions v
                    ++ [py_min (call f (NAG_move f lr momentum (nag_pos v)
                                                 (nag_velocity v)))
                               (last (nag_best_solutions v) d)]).
  { unfold v1, NAG_body, NAG_move, NAG_velocity.
    destruct (grads_at f _) as [grads y0]. cbn.
    now rewrite (last_default _ d Hne). }
  assert (Hit : nag_best_it v1
                = if s_ltb (call f (NAG_move f lr momentum (nag_pos v)
                                             (nag_velocity v)))
                           (last (nag_best_solutions v) d)
                  then t else nag_best_it v).
  { unfold v1, NAG_body, NAG_move, NAG_velocity.
    destruct (grads_at f _) as [grads y0]. cbn.
    now rewrite (last_default _ d Hne). }
  rewrite (IH v1 d) by (rewrite Hbs; now destruct (nag_best_solutions v)).
  now rewrite Hpos, Hvel, Hbs, Hit, last_last.
Qed.

Lemma py_min_not_below (y b : T) :
  s_ltb y b = false -> s_ltb (py_min y b) b = false.
Proof.
  intros Hyb. unfold py_min. destruct (s_ltb b y);
    [ apply s_ltb_irrefl | exact Hyb ].
Qed.

Lemma py_min_improves (y b : T) : s_ltb y b = true -> py_min y b = y.
Proof.
  intros Hyb. unfold py_min. now rewrite (s_ltb_asym _ _ Hyb).
Qed.

(** Where [running_it] ends, against the best-value list. *)
Lemma running_it_spec (d : T) (ys : list T) :
  forall (b : T) (k : nat) (it0 : Z),
    let L := b :: running_best b ys in
    let r := running_it b ys (map Z.of_nat (seq k (length ys))) it0 in
    (forall i, (i < length ys)%nat -> r < Z.of_nat (k + i) ->
               s_ltb (nth (S i) L d) (nth i L d) = false) /\
    (r = it0 \/
     exists i, (i < length ys)%nat /\ r = Z.of_nat (k + i) /\
               s_ltb (nth (S i) L d) (nth i L d) = true).
Proof.
  induction ys as [ | y ys IH ]; intros b k it0.
  - cbn. split; [ intros i Hi; lia | now left ].
  - cbn [length seq map running_it running_best].
    specialize (IH (py_min y b) (S k)
                   (if s_ltb y b then Z.of_nat k else it0)).
    cbn zeta in IH. destruct IH as [IH1 IH2].
    set (r := running_it (py_min y b) ys
                         (map Z.of_nat (seq (S k) (length ys)))
                         (if s_ltb y b then Z.of_nat k else it0)) in *.
    cbn zeta. split.
    + intros [ | j ] Hi Hr.
      * cbn [nth]. rewrite Nat.add_0_r in Hr.
        destruct (s_ltb y b) eqn:Hyb.
        -- destruct IH2 as [ Heq | (i & _ & Heq & _) ]; lia.
        -- now apply py_min_not_below.
      * change (nth (S (S j)) (b :: py_min y b :: running_best (py_min y b) ys) d)
          with (nth (S j) (py_min y b :: running_best (py_min y b) ys) d).
        change (nth (S j) (b :: py_min y b :: running_best (py_min y b) ys) d)
          with (nth j (py_min y b :: running_best (py_min y b) ys) d).
        apply IH1; lia.
    + destruct IH2 as [ Heq | (i & Hi & Heq & Hlt) ].
      * destruct (s_ltb y b) eqn:Hyb.
        -- right. exists 0%nat. split; [ lia | ].
           split; [ rewrite Heq; f_equal; lia | ].
           cbn [nth]. now rewrite (py_min_improves _ _ Hyb).
        -- now left.
      * right. exists (S i). split; [ lia | ].
        split; [ rewrite Heq; f_equal; lia | exact Hlt ].
Qed.

(** What the code makes of the returned iteration [it] for the best-value
    list [bs] of [n] iterations: it is 0 or the (0-based) index of an
    iteration; no later iteration improved strictly; when it is not 0 the
    entry after position [it] is strictly below the entry at position [it];
    and every entry from position [it + 1] on is as good as any other. *)
Definition last_improvement (bs : list T) (it : Z) (n : nat) : Prop :=
  0 <= it /\ (it = 0 \/ it < Z.of_nat n) /\
  (forall i d, (i < n)%nat -> it < Z.of_nat i ->
               s_ltb (nth (S i) bs d) (nth i bs d) = false) /\
  (forall d, it <> 0 ->
             s_ltb (nth (S (Z.to_nat it)) bs d) (nth (Z.to_nat it) bs d)
             = true) /\
  (forall j d, (Z.to_nat it < j <= n)%nat ->
               s_leb (nth (S (Z.to_nat it)) bs d) (nth j bs d) = true).

Lemma no_nan_nth (l : list T) (i : nat) (d : T) :
  no_nan l -> (i < length l)%nat -> s_isnan (nth i l d) = false.
Proof.
  intros Hn Hi. unfold no_nan in Hn. rewrite Forall_forall in Hn.
  apply Hn. now apply nth_In.
Qed.

Lemma running_it_last_improvement (b : T) (ys : list T) :
  no_nan (b :: ys) ->
  last_improvement (b :: running_best b ys)
                   (running_it b ys (map Z.of_nat (seq 0 (length ys))) 0)
                   (length ys).
Proof.
  intros Hn.
  assert (HL : no_nan (b :: running_best b ys)).
  { inversion Hn; subst. constructor; [ assumption | ].
    now apply running_best_no_nan. }
  assert (Hlen : length (b :: running_best b ys) = S (length ys)).
  { cbn. now rewrite length_running_best. }
  set (r := running_it b ys (map Z.of_nat (seq 0 (length ys))) 0).
  assert (Hspec : forall d,
    (forall i, (i < length ys)%nat -> r < Z.of_nat i ->
               s_ltb (nth (S i) (b :: running_best b ys) d)
                     (nth i (b :: running_best b ys) d) = false) /\
    (r = 0 \/
     exists i, (i < length ys)%nat /\ r = Z.of_nat i /\
               s_ltb (nth (S i) (b :: running_best b ys) d)
                     (nth i (b :: running_best b ys) d) = true)).
  { intros d. exact (running_it_spec d ys b 0 0). }
  assert (Hnone : forall i d, (i < length ys)%nat -> r < Z.of_nat i ->
               s_ltb (nth (S i) (b :: running_best b ys) d)
                     (nth i (b :: running_best b ys) d) = false).
  { intros i d. apply (proj1 (Hspec d)). }
  destruct (proj2 (Hspec b)) as [ Hr | (i0 & Hi0 & Hr & _) ].
  - split; [ lia | ]. split; [ now left | ]. split; [ exact Hnone | ].
    split; [ intros d Hne; contradiction | ].
    intros j d [Hj1 Hj2]. rewrite Hr in *. cbn [Z.to_nat] in *.
    induction j as [ | j IHj ]; [ lia | ].
    destruct j as [ | j ]; [ apply s_leb_refl | ].
    apply s_leb_trans with (nth (S j) (b :: running_best b ys) d).
    + apply no_nan_nth; [ exact HL | lia ].
    + apply IHj; lia.
    + unfold s_leb. rewrite (Hnone (S j) d); [ reflexivity | lia | lia ].
  - split; [ lia | ]. split; [ right; lia | ]. split; [ exact Hnone | ].
    split.
    + intros d Hne.
      destruct (proj2 (Hspec d)) as [ Hr0 | (i & Hi & Hri & Hlt) ];
        [ contradiction | ].
      assert (i = i0) by lia. subst i. now rewrite Hr, Nat2Z.id.
    + intros j d [Hj1 Hj2]. rewrite Hr, Nat2Z.id in *.
      induction j as [ | j IHj ]; [ lia | ].
      destruct (Nat.eq_dec j i0) as [ -> | Hne ]; [ apply s_leb_refl | ].
      apply s_leb_trans with (nth j (b :: running_best b ys) d).
      * apply no_nan_nth; [ exact HL | lia ].
      * apply IHj; lia.
      * unfold s_leb. rewrite (Hnone j d); [ reflexivity | lia | lia ].
Qed.

Lemma length_GD_evaluations f (lr : T) (n : nat) :
  forall pos, length (GD_evaluations f lr pos n) = n.
Proof.
  induction n as [ | n IH ]; intros pos; cbn; [ reflexivity | ].
  now rewrite IH.
Qed.

Lemma length_NAG_evaluations f (lr momentum : T) (n : nat) :
  forall pos velocity,
    length (NAG_evaluations f lr momentum pos velocity n) = n.
Proof.
  induction n as [ | n IH ]; intros pos velocity; cbn; [ reflexivity | ].
  now rewrite IH.
Qed.

(** When no objective value computed along the run is a NaN, the
    iteration that [GD] and [NAG] return is the loop index of the last
    iteration that improved the best value strictly (0 when none did): the
    best value sits at position [it + 1] of the returned sequence, one
    after the returned index, and the entry at position [it] itself is
    strictly worse whenever [it] is not 0. *)
Theorem best_iteration_is_last_improvement f (pos : list T) (steps : Z) :
  (no_nan (call f pos
             :: GD_evaluations f
                  (s_lit (dict_get gd_lrs (name f) (1 # 100)%Q))
                  pos (Z.to_nat steps)) ->
   last_improvement (fst (GD f pos steps)) (snd (GD f pos steps))
                    (Z.to_nat steps)) /\
  (no_nan (call f pos
             :: NAG_evaluations
                  f
                  (s_lit (fst (dict_get nag_params (name f)
                                        (1 # 100, 8 # 10)%Q)))
                  (s_lit (snd (dict_get nag_params (name f)
                                        (1 # 100, 8 # 10)%Q)))
                  pos (zeros pos) (Z.to_nat steps)) ->
   last_improvement (fst (NAG f pos steps)) (snd (NAG f pos steps))
                    (Z.to_nat steps)).
Proof.
  split.
  - unfold GD. cbn [fst snd].
    rewrite (GD_loop f _ (range steps) (mkGD pos [call f pos] 0) (call f pos))
      by discriminate.
    rewrite (GD_loop_it f _ (range steps) (mkGD pos [call f pos] 0)
                        (call f pos)) by discriminate.
    cbn [gd_best_solutions gd_pos gd_best_it last app].
    rewrite length_range.
    set (ys := GD_evaluations f _ pos (Z.to_nat steps)).
    assert (Hlen : length ys = Z.to_nat steps)
      by apply length_GD_evaluations.
    unfold range. rewrite <- Hlen. apply running_it_last_improvement.
  - unfold NAG.
    destruct (dict_get nag_params (name f) (1 # 100, 8 # 10)%Q)
      as [lr momentum].
    cbn [fst snd].
    rewrite (NAG_loop f _ _ (range steps)
                      (mkNAG pos (zeros pos) [call f pos] 0) (call f pos))
      by discriminate.
    rewrite (NAG_loop_it f _ _ (range steps)
                         (mkNAG pos (zeros pos) [call f pos] 0)
                         (call f pos)) by discriminate.
    cbn [nag_best_solutions nag_pos nag_velocity nag_best_it last app].
    rewrite length_range.
    set (ys := NAG_evaluations f _ _ pos (zeros pos) (Z.to_nat steps)).
    assert (Hlen : length ys = Z.to_nat steps)
      by apply length_NAG_evaluations.
    unfold range. rewrite <- Hlen. apply running_it_last_improvement.
Qed.

End BaselineIterates.

Section BaselineDomain.

Context {T : Type} {ST : Scalar T}.

Implicit Types (f : @TensorflowFunction T).

(** The positions of the first [n] iterations of [GD], in order. *)
Fixpoint GD_positions f (lr : T) (pos : list T) (n : nat)
  : list (list T) :=
  match n with
  | O => []
  | S n' =>
      let pos' := GD_move f lr pos in
      pos' :: GD_positions f lr pos' n'
  end.

(** The point [projected] at which an iteration of [NAG] takes the
    gradient. *)
Definition NAG_projected f (momentum : T) (pos velocity : list T)
  : list T :=
  clip_by_value (map2 s_add pos (scale momentum velocity))
                (d_min (domain f)) (d_max (domain f)).

(** For each of the first [n] iterations of [NAG], the point of its
    gradient and its new position. *)
Fixpoint NAG_positions f (lr momentum : T) (pos velocity : list T)
         (n : nat) : list (list T * list T) :=
  match n with
  | O => []
  | S n' =>
      let velocity' := NAG_velocity f lr momentum pos velocity in
      let pos' := NAG_move f lr momentum pos velocity in
      (NAG_projected f momentum pos velocity, pos')
        :: NAG_positions f lr momentum pos' velocity' n'
  end.

(** [x <= y] as IEEE has it: neither side is a NaN and [y < x] is false. *)
Definition ieee_le (x y : T) : Prop :=
  s_isnan x = false /\ s_isnan y = false /\ s_ltb y x = false.

(** A point whose every coordinate is a NaN or lies in the box of the
    function. *)
Definition nan_or_in_domain f (x : list T) : Prop :=
  Forall (fun c => s_isnan c = true \/
                   (ieee_le (d_min (domain f)) c /\
                    ieee_le c (d_max (domain f)))) x.

Lemma dict_get_missing {V : Type} (d : list (string * V)) (key : string)
      (default : V) :
  ~ In key (map fst d) -> dict_get d key default = default.
Proof.
  induction d as [ | [k v] d IH ]; intros Hnot; [ reflexivity | ].
  cbn [dict_get]. destruct (String.eqb_spec k key) as [ -> | Hne ].
  - elim Hnot. now left.
  - apply IH. intros Hin. apply Hnot. now right.
Qed.

Lemma clip_nan_or_in_domain f (t : list T) :
  ieee_le (d_min (domain f)) (d_max (domain f)) ->
  nan_or_in_domain f (clip_by_value t (d_min (domain f)) (d_max (domain f))).
Proof.
  intros (Hlo & Hhi & Hle). unfold nan_or_in_domain.
  assert (Hd : s_leb (d_min (domain f)) (d_max (domain f)) = true).
  { unfold s_leb. now rewrite Hle. }
  pose proof (@clip_by_value_within _ _ t _ _ Hd) as Hw.
  eapply Forall_impl; [ | exact Hw ]. cbn beta. intros c [Hc1 Hc2].
  destruct (s_isnan c) eqn:Hn; [ now left | right ].
  unfold s_leb in Hc1, Hc2. apply negb_true_iff in Hc1, Hc2.
  repeat split; assumption.
Qed.

Lemma GD_positions_spec f (lr : T) (n : nat) :
  ieee_le (d_min (domain f)) (d_max (domain f)) ->
  forall pos,
    GD_evaluations f lr pos n = map (call f) (GD_positions f lr pos n) /\
    Forall (nan_or_in_domain f) (GD_positions f lr pos n).
Proof.
  intros Hd. induction n as [ | n IH ]; intros pos.
  - split; [ reflexivity | constructor ].
  - destruct (IH (GD_move f lr pos)) as [IHe IHp].
    cbn [GD_evaluations GD_positions map]. split.
    + now rewrite IHe.
    + constructor; [ | exact IHp ].
      unfold GD_move. now apply clip_nan_or_in_domain.
Qed.

Lemma NAG_positions_spec f (lr momentum : T) (n : nat) :
  ieee_le (d_min (domain f)) (d_max (domain f)) ->
  forall pos velocity,
    NAG_evaluations f lr momentum pos velocity n
    = map (fun p => call f (snd p))
          (NAG_positions f lr momentum pos velocity n) /\
    Forall (fun p => nan_or_in_domain f (fst p) /\
                     nan_or_in_domain f (snd p))
           (NAG_positions f lr momentum pos velocity n).
Proof.
  intros Hd. induction n as [ | n IH ]; intros pos velocity.
  - split; [ reflexivity | constructor ].
  - destruct (IH (NAG_move f lr momentum pos velocity)
                 (NAG_velocity f lr momentum pos velocity)) as [IHe IHp].
    cbn [NAG_evaluations NAG_positions map snd]. split.
    + now rewrite IHe.
    + constructor; [ | exact IHp ]. cbn [fst snd]. split.
      * unfold NAG_projected. now apply clip_nan_or_in_domain.
      * unfold NAG_move. now apply clip_nan_or_in_domain.
Qed.

Lemma running_best_In (ys : list T) :
  forall b m, In m (running_best b ys) -> m = b \/ In m ys.
Proof.
  induction ys as [ | y ys IH ]; intros b m Hin; [ contradiction | ].
  cbn [running_best] in Hin. destruct Hin as [ <- | Hin ].
  - destruct (py_min_cases y b) as [ -> | -> ]; [ right; now left | now left ].
  - destruct (IH _ _ Hin) as [ -> | Hys ]; [ | right; now right ].
    destruct (py_min_cases y b) as [ -> | -> ]; [ right; now left | now left ].
Qed.

(** With a box [domain.min <= domain.max], every value of the sequence
    that [GD] returns is the value of the objective at the starting
    position or at a point whose coordinates lie in the box of the function
    (or are NaN, which clipping lets through); the same holds of [NAG].
    Only the starting position can be evaluated outside the box. *)
Theorem baseline_values_from_domain f (pos : list T) (steps : Z) :
  ieee_le (d_min (domain f)) (d_max (domain f)) ->
  (forall b,
      In b (fst (GD f pos steps)) ->
      b = call f pos \/
      exists x, nan_or_in_domain f x /\ b = call f x) /\
  (forall b,
      In b (fst (NAG f pos steps)) ->
      b = call f pos \/
      exists x, nan_or_in_domain f x /\ b = call f x).
Proof.
  intros Hd. split.
  - unfold GD. cbn [fst].
    rewrite (GD_loop f _ (range steps) (mkGD pos [call f pos] 0) (call f pos))
      by discriminate.
    cbn [gd_best_solutions gd_pos last app]. rewrite length_range.
    intros b [ <- | Hin ]; [ now left | ].
    apply running_best_In in Hin. destruct Hin as [ -> | Hin ]; [ now left | ].
    right.
    destruct (GD_positions_spec f
                (s_lit (dict_get gd_lrs (name f) (1 # 100)%Q))
                (Z.to_nat steps) Hd pos) as [He Hp].
    rewrite He in Hin. apply in_map_iff in Hin.
    destruct Hin as (x & <- & Hx). exists x. split; [ | reflexivity ].
    rewrite Forall_forall in Hp. now apply Hp.
  - unfold NAG.
    destruct (dict_get nag_params (name f) (1 # 100, 8 # 10)%Q)
      as [lr momentum].
    cbn [fst].
    rewrite (NAG_loop f _ _ (range steps)
                      (mkNAG pos (zeros pos) [call f pos] 0) (call f pos))
      by discriminate.
    cbn [nag_best_solutions nag_pos nag_velocity last app].
    rewrite length_range.
    intros b [ <- | Hin ]; [ now left | ].
    apply running_best_In in Hin. destruct Hin as [ -> | Hin ]; [ now left | ].
    right.
    destruct (NAG_positions_spec f (s_lit lr) (s_lit momentum)
                (Z.to_nat steps) Hd pos (zeros pos)) as [He Hp].
    rewrite He in Hin. apply in_map_iff in Hin.
    destruct Hin as (p & <- & Hp'). exists (snd p). split; [ | reflexivity ].
    rewrite Forall_forall in Hp. now apply (Hp p Hp').
Qed.

(** The names of the two parameter tables. *)
Definition table_names : list string :=
  ["F1"; "F2"; "F3"; "F4"; "F5"; "F6"; "F7"; "F8"]%string.

(** A function whose name is in neither table is optimised with the
    fall-back parameters: [GD] returns the running best of the descent with
    learning rate 1e-2, [NAG] that of the descent with learning rate 1e-2
    and momentum 0.8 from a zero velocity. *)
Theorem unlisted_function_uses_defaults f (pos : list T) (steps : Z) :
  ~ In (name f) table_names ->
  fst (GD f pos steps)
  = call f pos
      :: running_best (call f pos)
                      (GD_evaluations f (s_lit (1 # 100)%Q) pos
                                      (Z.to_nat steps)) /\
  fst (NAG f pos steps)
  = call f pos
      :: running_best (call f pos)
                      (NAG_evaluations f (s_lit (1 # 100)%Q)
                                       (s_lit (8 # 10)%Q) pos (zeros pos)
                                       (Z.to_nat steps)).
Proof.
  intros Hnot. split.
  - unfold GD. cbn [fst].
    rewrite (dict_get_missing gd_lrs (name f) (1 # 100)%Q Hnot).
    rewrite (GD_loop f _ (range steps) (mkGD pos [call f pos] 0) (call f pos))
      by discriminate.
    cbn [gd_best_solutions gd_pos last app]. now rewrite length_range.
  - unfold NAG.
    rewrite (dict_get_missing nag_params (name f) (1 # 100, 8 # 10)%Q Hnot).
    cbn [fst].
    rewrite (NAG_loop f _ _ (range steps)
                      (mkNAG pos (zeros pos) [call f pos] 0) (call f pos))
      by discriminate.
    cbn [nag_best_solutions nag_pos nag_velocity last app].
    now rewrite length_range.
Qed.

End BaselineDomain.

(** * [evaluate_baselines]: the table of baseline results *)

From Stdlib Require Import DecimalString.

(** A cell of a row handed to [csv.writer.writerow]. *)
Inductive cell (T : Type) : Type :=
| CellStr (s : string)
| CellInt (z : Z)
| CellFloat (x : T).

Arguments CellStr {T} s.
Arguments CellInt {T} z.
Arguments CellFloat {T} x.

(** [f'{dims}'] for a Python int. *)
Definition format_int (z : Z) : string := NilZero.string_of_int (Z.to_int z).

Section EvaluateBaselines.

Context {T : Type} {ST : Scalar T}.

(** What the function takes from NumPy.  [default_rng k] is the generator
    that [rand.default_rng()] creates for the [k]-th function of the catalog
    (it is seeded from fresh entropy); [np_uniform g n lo hi] is
    [g.uniform(size=(n,), low=lo, high=hi)] with the advanced generator;
    [np_mean] and [np_std] are [np.mean(l).astype(np.float32).item()] and
    the same with [np.std]; [rint_mean l] is [int(np.rint(np.mean(l)))] on
    a list that is not empty. *)
Variable NG : Type.
Variable default_rng : nat -> NG.
Variable np_uniform : NG -> nat -> T -> T -> list T * NG.
Variable np_mean : list T -> T.
Variable np_std : list T -> T.
Variable rint_mean : list Z -> Z.

Record BaselineEvalData : Type := mkBaselineEvalData {
  baseline_name : string;
  function_name : string;
  avg_best_solution : T;
  stddev_best_solutions : T;
  avg_best_solution_iteration : Z
}.

(** [int(np.rint(np.mean(l)))]: the mean of an empty list is NaN, which
    [int] refuses. *)
Definition int_rint_mean (l : list Z) : option Z :=
  match l with
  | [] => None
  | _ => Some (rint_mean l)
  end.

(** The variables of the loop over the episodes of one function. *)
Record episode_vars : Type := mkEpisodes {
  ev_rng : NG;
  gd_bs : list T;
  gd_bs_it : list Z;
  nag_bs : list T;
  nag_bs_it : list Z
}.

(** One episode: two starting positions are drawn, then [GD] and [NAG] run
    and their last best value and best iteration are recorded. *)
Definition episode_body (fn : TensorflowFunction) (dims0 steps : Z)
           (v : episode_vars) (ep : Z) : episode_vars :=
  let '(gd_pos0, rng1) :=
    np_uniform (ev_rng v) (Z.to_nat dims0)
               (d_min (domain fn)) (d_max (domain fn)) in
  let '(nag_pos0, rng2) :=
    np_uniform rng1 (Z.to_nat dims0)
               (d_min (domain fn)) (d_max (domain fn)) in
  let gd := GD fn gd_pos0 steps in
  let nag := NAG fn nag_pos0 steps in
  mkEpisodes rng2
             (gd_bs v ++ [last (fst gd) (call fn gd_pos0)])
             (gd_bs_it v ++ [snd gd])
             (nag_bs v ++ [last (fst nag) (call fn nag_pos0)])
             (nag_bs_it v ++ [snd nag]).

(** The body of the loop over the catalog, for the [k]-th function: the
    two records it appends, unless it raises.  A negative [dims] is refused
    by the first draw; without any episode the mean iteration is NaN. *)
Definition evaluate_function (k : nat) (fn : TensorflowFunction)
           (dims0 steps episodes : Z)
  : option (BaselineEvalData * BaselineEvalData) :=
  if (0 <? episodes) && (dims0 <? 0) then None
  else
    let v := fold_left (episode_body fn dims0 steps) (range episodes)
                       (mkEpisodes (default_rng k) [] [] [] []) in
    match int_rint_mean (gd_bs_it v) with
    | None => None
    | Some gd_it =>
        let data_gd :=
          mkBaselineEvalData "GD" (name fn) (np_mean (gd_bs v))
                             (np_std (gd_bs v)) gd_it in
        match int_rint_mean (nag_bs_it v) with
        | None => None
        | Some nag_it =>
            let data_nag :=
              mkBaselineEvalData "NAG" (name fn) (np_mean (nag_bs v))
                                 (np_std (nag_bs v)) nag_it in
            Some (data_gd, data_nag)
        end
    end.

(** The loop over the catalog, from the [k]-th function on. *)
Fixpoint evaluate_functions (k : nat) (fns : list TensorflowFunction)
         (dims0 steps episodes : Z)
         (baseline_eval_data : list BaselineEvalData)
  : option (list BaselineEvalData) :=
  match fns with
  | [] => Some baseline_eval_data
  | fn :: rest =>
      match evaluate_function k fn dims0 steps episodes with
      | None => None
      | Some (data_gd, data_nag) =>
          evaluate_functions (S k) rest dims0 steps episodes
                             (baseline_eval_data ++ [data_gd; data_nag])
      end
  end.

Definition csv_header : list (cell T) :=
  [CellStr "Baseline"; CellStr "Function"; CellStr "Dims";
   CellStr "Avg Best Solution"; CellStr "Stddev of best solutions";
   CellStr "Avg Best Solution Iteration"].

Definition csv_row (dims0 : Z) (data : BaselineEvalData) : list (cell T) :=
  [CellStr (baseline_name data); CellStr (function_name data);
   CellInt dims0; CellFloat (avg_best_solution data);
   CellFloat (stddev_best_solutions data);
   CellInt (avg_best_solution_iteration data)].

(** [evaluate_baselines]: the name of the file it writes and the rows it
    writes to it, or [None] when it raises, which it does before the file
    is opened. *)
Definition evaluate_baselines (fns : list TensorflowFunction)
           (dims0 steps episodes : Z)
  : option (string * list (list (cell T))) :=
  match evaluate_functions 0 fns dims0 steps episodes [] with
  | None => None
  | Some baseline_eval_data =>
      Some (("baselines_" ++ format_int dims0 ++ "D_data.csv")%string,
            csv_header :: map (csv_row dims0) baseline_eval_data)
  end.

Lemma episodes_recorded (fn : TensorflowFunction) (dims0 steps : Z)
      (eps : list Z) :
  forall v,
    length (gd_bs_it (fold_left (episode_body fn dims0 steps) eps v))
    = (length (gd_bs_it v) + length eps)%nat /\
    length (nag_bs_it (fold_left (episode_body fn dims0 steps) eps v))
    = (length (nag_bs_it v) + length eps)%nat.
Proof.
  induction eps as [ | ep eps IH ]; intros v; cbn [fold_left length].
  - split; lia.
  - destruct (IH (episode_body fn dims0 steps v ep)) as [-> ->].
    unfold episode_body.
    destruct (np_uniform (ev_rng v) _ _ _) as [gd_pos0 rng1].
    destruct (np_uniform rng1 _ _ _) as [nag_pos0 rng2].
    cbn [gd_bs_it nag_bs_it]. rewrite !length_app. cbn [length]. lia.
Qed.

(** What one function of the catalog contributes. *)
Lemma evaluate_function_spec (k : nat) (fn : TensorflowFunction)
      (dims0 steps episodes : Z) :
  match evaluate_function k fn dims0 steps episodes with
  | None => episodes <= 0 \/ dims0 < 0
  | Some (g, n) =>
      0 < episodes /\ 0 <= dims0 /\
      baseline_name g = "GD"%string /\ function_name g = name fn /\
      baseline_name n = "NAG"%string /\ function_name n = name fn
  end.
Proof.
  unfold evaluate_function.
  destruct (Z.ltb_spec 0 episodes) as [ Hep | Hep ].
  - destruct (Z.ltb_spec dims0 0) as [ Hd | Hd ]; cbn [andb];
      [ now right | ].
    destruct (episodes_recorded fn dims0 steps (range episodes)
                (mkEpisodes (default_rng k) [] [] [] [])) as [Hg Hn].
    rewrite length_range in Hg, Hn. cbn [gd_bs_it nag_bs_it length] in Hg, Hn.
    set (v := fold_left _ _ _) in *.
    destruct (gd_bs_it v) as [ | a l ]; [ cbn in Hg; lia | ].
    destruct (nag_bs_it v) as [ | a' l' ]; [ cbn in Hn; lia | ].
    cbn. repeat split; lia.
  - cbn [andb]. unfold range.
    replace (Z.to_nat episodes) with 0%nat by lia.
    cbn. now left.
Qed.

(** The three leading cells of the two rows of a function. *)
Definition leading_cells (dims0 : Z) (fn : @TensorflowFunction T)
  : list (list (cell T)) :=
  [[CellStr "GD"; CellStr (name fn); CellInt dims0];
   [CellStr "NAG"; CellStr (name fn); CellInt dims0]].

Lemma evaluate_functions_spec (fns : list TensorflowFunction)
      (dims0 steps episodes : Z) :
  forall (k : nat) (acc : list BaselineEvalData),
    match evaluate_functions k fns dims0 steps episodes acc with
    | None => fns <> [] /\ (episodes <= 0 \/ dims0 < 0)
    | Some data =>
        (fns = [] \/ (0 < episodes /\ 0 <= dims0)) /\
        exists tail,
          data = acc ++ tail /\
          length tail = (2 * length fns)%nat /\
          map (fun d => firstn 3 (csv_row dims0 d)) tail
          = flat_map (leading_cells dims0) fns
    end.
Proof.
  induction fns as [ | fn rest IH ]; intros k acc.
  - cbn. split; [ now left | ]. exists []. now rewrite app_nil_r.
  - cbn [evaluate_functions].
    pose proof (evaluate_function_spec k fn dims0 steps episodes) as Hfn.
    destruct (evaluate_function k fn dims0 steps episodes) as [ [g n] | ].
    + destruct Hfn as (Hep & Hd & Hg1 & Hg2 & Hn1 & Hn2).
      specialize (IH (S k) (acc ++ [g; n])).
      destruct (evaluate_functions (S k) rest dims0 steps episodes
                                   (acc ++ [g; n])) as [ data | ].
      * destruct IH as (_ & tail & Hdata & Hlen & Hmap).
        split; [ right; lia | ].
        exists (g :: n :: tail). split; [ | split ].
        -- rewrite Hdata, <- app_assoc. reflexivity.
        -- cbn [length]. lia.
        -- cbn [map flat_map leading_cells app csv_row firstn].
           now rewrite Hg1, Hg2, Hn1, Hn2, <- Hmap.
      * destruct IH as [_ Hor]. split; [ discriminate | exact Hor ].
    + split; [ discriminate | exact Hfn ].
Qed.

(** [evaluate_baselines] raises exactly when the catalog is not empty and
    either no episode is asked for (the mean iteration is then NaN) or the
    dimensionality is negative; it then writes no file.  An empty catalog
    never raises. *)
Theorem evaluate_baselines_raises_iff (fns : list TensorflowFunction)
        (dims0 steps episodes : Z) :
  evaluate_baselines fns dims0 steps episodes = None <->
  fns <> [] /\ (episodes <= 0 \/ dims0 < 0).
Proof.
  unfold evaluate_baselines.
  pose proof (evaluate_functions_spec fns dims0 steps episodes 0 []) as H.
  destruct (evaluate_functions 0 fns dims0 steps episodes []) as [ data | ].
  - destruct H as [Hor _]. split; [ discriminate | ].
    intros [Hne Hbad]. destruct Hor as [ -> | [Hep Hd] ];
      [ congruence | lia ].
  - split; [ intros _; exact H | reflexivity ].
Qed.

(** The file that [evaluate_baselines] writes is named after the
    dimensionality; its first row is the header; then come two rows per
    function, in the order of the catalog, the first for GD and the second
    for NAG, each starting with the baseline, the name of the function and
    the dimensionality; every row has six cells. *)
Theorem evaluate_baselines_layout (fns : list TensorflowFunction)
        (dims0 steps episodes : Z) (fname : string)
        (rows : list (list (cell T))) :
  evaluate_baselines fns dims0 steps episodes = Some (fname, rows) ->
  fname = ("baselines_" ++ format_int dims0 ++ "D_data.csv")%string /\
  hd_error rows = Some csv_header /\
  map (firstn 3) (tl rows) = flat_map (leading_cells dims0) fns /\
  length rows = (1 + 2 * length fns)%nat /\
  Forall (fun r => length r = 6%nat) rows.
Proof.
  unfold evaluate_baselines.
  pose proof (evaluate_functions_spec fns dims0 steps episodes 0 []) as H.
  destruct (evaluate_functions 0 fns dims0 steps episodes []) as [ data | ];
    [ | discriminate ].
  destruct H as (_ & tail & Hdata & Hlen & Hmap). cbn [app] in Hdata.
  subst tail. intros [= <- <-].
  split; [ reflexivity | ]. split; [ reflexivity | ].
  cbn [tl]. split; [ | split ].
  - now rewrite map_map.
  - cbn [length]. rewrite length_map. lia.
  - constructor; [ reflexivity | ].
    apply Forall_forall. intros r Hr. apply in_map_iff in Hr.
    now destruct Hr as (d & <- & _).
Qed.

End EvaluateBaselines.

(** * [train_td3_rnn]: the schedule of the training loop

    The training section of [experiments/training/pomdp/td3.py]: the loop
    over the episodes, the evaluation that follows it and the saving of the
    policy.  The calls to the collaborators are recorded as events, in
    order; what is printed and the timing are left out. *)

Inductive training_event : Type :=
| TrainPhase                (* train_phase() *)
| TfSummaries (metric : nat)  (* train_metrics[metric].tf_summaries(...) *)
| ComputeEvalMetrics        (* compute_eval_metrics() *)
| SavePolicy.               (* training_utils.save_policy(...) *)

Definition is_train_phase (ev : training_event) : bool :=
  match ev with TrainPhase => true | _ => false end.

Definition is_evaluation (ev : training_event) : bool :=
  match ev with ComputeEvalMetrics => true | _ => false end.

Definition is_save (ev : training_event) : bool :=
  match ev with SavePolicy => true | _ => false end.

(** The inner loop [for _ in range(env_steps)]: a training phase, then the
    summaries of the two training metrics. *)
Definition env_steps_events (env_steps : Z) : list training_event :=
  flat_map (fun _ : Z => [TrainPhase; TfSummaries 0; TfSummaries 1])
           (range env_steps).

(** The loop over the episodes [eps]: the events, and whether it ran to
    its end.  [ep % eval_interval] raises ZeroDivisionError when
    [eval_interval] is 0. *)
Fixpoint training_episodes_events (eps : list Z) (env_steps : Z)
         (eval_interval : Z) : list training_event * bool :=
  match eps with
  | [] => ([], true)
  | ep :: rest =>
      let inner := env_steps_events env_steps in
      if eval_interval =? 0 then (inner, false)
      else
        let evaluation :=
          if ep mod eval_interval =? 0 then [ComputeEvalMetrics] else [] in
        let '(events, finished) :=
          training_episodes_events rest env_steps eval_interval in
        (inner ++ evaluation ++ events, finished)
  end.

(** The training section: the loop, then one more evaluation and the
    saving of the policy. *)
Definition train_td3_rnn_schedule (training_episodes env_steps : Z)
           (eval_interval : Z) : list training_event * bool :=
  let '(events, finished) :=
    training_episodes_events (range training_episodes) env_steps
                             eval_interval in
  if finished then (events ++ [ComputeEvalMetrics; SavePolicy], true)
  else (events, false).

Definition count (p : training_event -> bool) (l : list training_event)
  : nat :=
  length (filter p l).

Lemma count_app (p : training_event -> bool) (l1 l2 : list training_event) :
  count p (l1 ++ l2) = (count p l1 + count p l2)%nat.
Proof. unfold count. now rewrite filter_app, length_app. Qed.

Lemma count_env_steps (env_steps : Z) :
  count is_train_phase (env_steps_events env_steps) = Z.to_nat env_steps /\
  count is_evaluation (env_steps_events env_steps) = 0%nat /\
  count is_save (env_steps_events env_steps) = 0%nat.
Proof.
  unfold env_steps_events.
  rewrite <- (length_range env_steps).
  induction (range env_steps) as [ | t l (IH1 & IH2 & IH3) ];
    [ now cbn | ].
  cbn [flat_map length]. rewrite !count_app, IH1, IH2, IH3. now cbn.
Qed.

Lemma training_episodes_counts (eps : list Z) (env_steps eval_interval : Z) :
  eval_interval <> 0 ->
  let '(events, finished) :=
    training_episodes_events eps env_steps eval_interval in
  finished = true /\
  count is_train_phase events = (length eps * Z.to_nat env_steps)%nat /\
  count is_evaluation events
  = length (filter (fun ep => ep mod eval_interval =? 0) eps) /\
  count is_save events = 0%nat.
Proof.
  intros Hne. apply Z.eqb_neq in Hne.
  induction eps as [ | ep eps IH ]; [ now cbn | ].
  cbn [training_episodes_events]. rewrite Hne.
  destruct (training_episodes_events eps env_steps eval_interval)
    as [events finished].
  destruct IH as (Hf & Ht & He & Hs).
  destruct (count_env_steps env_steps) as (Ct & Ce & Cs).
  split; [ exact Hf | ].
  rewrite !count_app, Ct, Ce, Cs, Ht, He, Hs. cbn [filter length].
  destruct (ep mod eval_interval =? 0); cbn; repeat split; lia.
Qed.

(** The multiples of [i] among [0 .. n-1]. *)
Lemma multiples_below (i : Z) (n : nat) :
  0 < i ->
  length (filter (fun ep => ep mod i =? 0) (map Z.of_nat (seq 0 n)))
  = Z.to_nat ((Z.of_nat n + i - 1) / i).
Proof.
  intros Hi. induction n as [ | n IH ].
  - cbn. rewrite Z.div_small; [ reflexivity | lia ].
  - rewrite seq_S, map_app, filter_app, length_app, IH. cbn [map filter].
    rewrite Nat.add_0_l.
    pose proof (Z.div_mod (Z.of_nat n) i ltac:(lia)) as Hdm.
    pose proof (Z.mod_pos_bound (Z.of_nat n) i Hi) as Hb.
    pose proof (Z.div_pos (Z.of_nat n) i ltac:(lia) Hi) as Hq.
    destruct (Z.eqb_spec (Z.of_nat n mod i) 0) as [ Hz | Hnz ].
    + assert (H1 : (Z.of_nat n + i - 1) / i = Z.of_nat n / i).
      { symmetry. apply (Z.div_unique _ _ _ (i - 1)); lia. }
      assert (H2 : (Z.of_nat (S n) + i - 1) / i = Z.of_nat n / i + 1).
      { symmetry. apply (Z.div_unique _ _ _ 0); lia. }
      rewrite H1, H2. cbn [length]. lia.
    + assert (H1 : (Z.of_nat n + i - 1) / i = Z.of_nat n / i + 1).
      { symmetry. apply (Z.div_unique _ _ _ (Z.of_nat n mod i - 1)); lia. }
      assert (H2 : (Z.of_nat (S n) + i - 1) / i = Z.of_nat n / i + 1).
      { symmetry. apply (Z.div_unique _ _ _ (Z.of_nat n mod i)); lia. }
      rewrite H1, H2. cbn [length]. lia.
Qed.

(** With a positive evaluation interval the training section runs to its
    end: it makes [training_episodes * env_steps] training phases, evaluates
    after the episodes 0, [eval_interval], [2 * eval_interval], ... and
    once more after the loop, that is
    [ceil (training_episodes / eval_interval) + 1] times, and saves the
    policy once, as its last call. *)
Theorem training_schedule_counts (training_episodes env_steps : Z)
        (eval_interval : Z) :
  0 < eval_interval ->
  let '(events, finished) :=
    train_td3_rnn_schedule training_episodes env_steps eval_interval in
  finished = true /\
  count is_train_phase events
  = (Z.to_nat training_episodes * Z.to_nat env_steps)%nat /\
  count is_evaluation events
  = (Z.to_nat ((Z.max training_episodes 0 + eval_interval - 1)
               / eval_interval) + 1)%nat /\
  count is_save events = 1%nat /\
  last events TrainPhase = SavePolicy.
Proof.
  intros Hi. unfold train_td3_rnn_schedule.
  pose proof (training_episodes_counts (range training_episodes) env_steps
                                       (eval_interval := eval_interval)
                                       ltac:(lia)) as H.
  destruct (training_episodes_events (range training_episodes) env_steps
                                     eval_interval) as [events finished].
  destruct H as (-> & Ht & He & Hs).
  split; [ reflexivity | ].
  rewrite !count_app, Ht, He, Hs, length_range.
  unfold range. rewrite (multiples_below (Z.to_nat training_episodes) Hi).
  replace (Z.of_nat (Z.to_nat training_episodes))
    with (Z.max training_episodes 0) by lia.
  split; [ cbn; lia | ]. split; [ cbn; lia | ]. split; [ reflexivity | ].
  replace (events ++ [ComputeEvalMetrics; SavePolicy])
    with ((events ++ [ComputeEvalMetrics]) ++ [SavePolicy])
    by now rewrite <- app_assoc.
  apply last_last.
Qed.

(** With an evaluation interval of 0 and at least one episode, the
    training section raises ZeroDivisionError at the end of the first
    episode: it has made the [env_steps] training phases of that episode,
    no evaluation, and the policy is not saved. *)
Theorem zero_eval_interval_raises (training_episodes env_steps : Z) :
  1 <= training_episodes ->
  train_td3_rnn_schedule training_episodes env_steps 0
  = (env_steps_events env_steps, false) /\
  count is_train_phase (env_steps_events env_steps) = Z.to_nat env_steps /\
  count is_evaluation (env_steps_events env_steps) = 0%nat /\
  count is_save (env_steps_events env_steps) = 0%nat.
Proof.
  intros Hn. split; [ | apply count_env_steps ].
  unfold train_td3_rnn_schedule, range.
  destruct (Z.to_nat training_episodes) as [ | n ] eqn:Hk; [ lia | ].
  reflexivity.
Qed.

(** * The further properties on concrete inputs *)

Module MoreScenario.

Import ZModel Scenario.

(** What the constructor builds for duration 0. *)
Definition env0 : @Env Z stream :=
  mkEnv [sphere] 0 (-5000) 5000 2 1 true 42 PHILOX (42, 3) false 0 0
        [-363; 1981].

Lemma env0_constructed : init [sphere] 2 42 0 true PHILOX = Some env0.
Proof. reflexivity. Defined.

Lemma env0_reachable : reachable env0.
Proof. exact (reachable_init _ _ _ _ _ _ env0_constructed). Defined.

(** Stand-ins for NumPy on the fixed-point model: a generator per
    function, the mean, the standard deviation and the rounded mean
    (halves to the even neighbour). *)
Definition np_default_rng (k : nat) : stream := (Z.of_nat k, 0).

Definition np_mean_z (l : list Z) : Z :=
  fold_right Z.add 0 l / Z.of_nat (length l).

Definition np_std_z (l : list Z) : Z :=
  Z.sqrt (fold_right (fun x acc => (x - np_mean_z l) * (x - np_mean_z l) + acc)
                     0 l
          / Z.of_nat (length l)).

Definition rint_mean_z (l : list Z) : Z :=
  let s := fold_right Z.add 0 l in
  let n := Z.of_nat (length l) in
  let q := s / n in
  let r := s mod n in
  if 2 * r <? n then q
  else if n <? 2 * r then q + 1
       else if Z.even q then q else q + 1.

Lemma current_time_step_never_raises_witness :
  reachable env3 /\
  exists ts, current_time_step env3 = Some ts /\ step_type ts = FIRST.
Proof.
  split; [ exact env3_reachable | ].
  exact (proj2 (proj2 current_time_step_never_raises env3 env3_reachable)).
Defined.

Lemma step_raises_only_ill_shaped_witness :
  step env3 [1; 2; 3] = Raised env3 /\
  episode_ended env3 = false /\
  length [1; 2; 3] <> Z.to_nat (dims env3) /\ length [1; 2; 3] <> 1%nat.
Proof.
  assert (Hstep : step env3 [1; 2; 3] = Raised env3) by reflexivity.
  split; [ exact Hstep | ].
  exact (proj2 (proj2 (step_raises_only_ill_shaped env3_reachable)
                      [1; 2; 3] env3 Hstep)).
Defined.

Lemma step_counter_invariant_witness :
  steps_taken env1_ended = 1 /\ duration env1_ended = 1 /\
  0 <= steps_taken env1_ended <= Z.max (duration env1_ended) 1 /\
  (episode_ended env1_ended = true <->
   1 <= steps_taken env1_ended /\
   duration env1_ended <= steps_taken env1_ended).
Proof.
  split; [ reflexivity | ]. split; [ reflexivity | ].
  destruct (step_counter_invariant env1_ended_reachable) as (H1 & H2 & _).
  split; [ exact H1 | exact H2 ].
Defined.

Lemma active_function_valid_witness :
  0 <= fn_index env3 < Z.of_nat (length (functions env3)) /\
  exists f,
    nth_error (functions env3) (Z.to_nat (fn_index env3)) = Some f /\
    switch_case (fn_index env3) (fn_evaluator env3 [3000; 4000])
    = Some (call f [3000; 4000]).
Proof.
  destruct (active_function_valid [3000; 4000] env3_reachable)
    as (_ & Hi & Hf).
  split; [ exact Hi | exact Hf ].
Defined.

Lemma observation_shape_witness :
  exists ts e',
    do_call env3 (CStep [1000; -1000]) = Returned ts e' /\
    length (observation ts) = Z.to_nat (dims env3) /\ dims e' = dims env3.
Proof.
  destruct (do_call env3 (CStep [1000; -1000])) as [ ts e' | e' ] eqn:Hcall;
    [ | vm_compute in Hcall; discriminate ].
  exists ts, e'. split; [ reflexivity | ].
  exact (observation_shape (CStep [1000; -1000]) env3_reachable Hcall).
Defined.

Lemma task_changes_only_on_reset_witness :
  episode_ended env3 = false /\
  fn_index (env_of (do_call env3 (CStep [1000; -1000]))) = fn_index env3 /\
  rng (env_of (do_call env3 (CStep [1000; -1000]))) = rng env3.
Proof.
  split; [ reflexivity | ].
  apply (proj2 (task_changes_only_on_reset env3 (CStep [1000; -1000]))).
  right. exists [1000; -1000]. split; reflexivity.
Defined.

Lemma step_broadcasts_scalar_action_witness :
  episode_ended env3 = false /\ dims env3 = 2 /\
  exists ts e',
    step env3 [-1000] = Returned ts e' /\
    state e' = clip_by_value (map (fun x => s_add x (-1000)) (state env3))
                             (domain_min env3) (domain_max env3) /\
    observation ts = state e'.
Proof.
  split; [ reflexivity | ]. split; [ reflexivity | ].
  exact (step_broadcasts_scalar_action (-1000) env3_reachable eq_refl).
Defined.

Lemma short_duration_single_step_witness :
  duration env0 <= 1 /\
  exists ts0 e0 ts1 e1,
    reset env0 = Returned ts0 e0 /\ step e0 [0; 0] = Returned ts1 e1 /\
    step_type ts1 = LAST /\ steps_taken e1 = 1 /\
    episode_ended e1 = true.
Proof.
  assert (Hd : duration env0 <= 1) by (cbn; lia).
  split; [ exact Hd | ].
  exact (short_duration_single_step [0; 0] env0_reachable Hd eq_refl).
Defined.

Lemma step_inside_domain_exact_witness :
  in_domain env3 (map2 s_add (state env3) [1000; -1000]) /\
  exists ts e',
    step env3 [1000; -1000] = Returned ts e' /\
    state e' = map2 s_add (state env3) [1000; -1000] /\
    observation ts = map2 s_add (state env3) [1000; -1000].
Proof.
  assert (Hin : in_domain env3 (map2 s_add (state env3) [1000; -1000])).
  { repeat (constructor; [ split; reflexivity | ]). constructor. }
  split; [ exact Hin | ].
  exact (step_inside_domain_exact [1000; -1000] env3_reachable eq_refl
                                  eq_refl Hin).
Defined.

Lemma step_type_of_step_witness :
  exists ts e',
    step env1 [0; 0] = Returned ts e' /\
    step_type ts = LAST /\ steps_taken e' = 1.
Proof.
  destruct (step env1 [0; 0]) as [ ts e' | e' ] eqn:Hstep;
    [ | vm_compute in Hstep; discriminate ].
  exists ts, e'. split; [ reflexivity | ].
  exact (step_type_of_step [0; 0] env1_reachable Hstep).
Defined.

Lemma unlisted_function_uses_defaults_witness :
  ~ In (name sphere) table_names /\
  fst (GD sphere [4000; -3000] 3)
  = call sphere [4000; -3000]
      :: running_best (call sphere [4000; -3000])
                      (GD_evaluations sphere (s_lit (1 # 100)%Q)
                                      [4000; -3000] (Z.to_nat 3)).
Proof.
  assert (Hnot : ~ In (name sphere) table_names).
  { unfold table_names. cbn [In name sphere]. intros H.
    repeat (destruct H as [ H | H ]; [ discriminate H | ]). exact H. }
  split; [ exact Hnot | ].
  exact (proj1 (unlisted_function_uses_defaults sphere [4000; -3000] 3 Hnot)).
Defined.

Lemma evaluate_baselines_raises_iff_witness :
  evaluate_baselines np_default_rng z_uniform np_mean_z np_std_z rint_mean_z
                     [sphere; absolute] 2 3 0
  = None.
Proof.
  apply (proj2 (evaluate_baselines_raises_iff
                  np_default_rng z_uniform np_mean_z np_std_z rint_mean_z
                  [sphere; absolute] 2 3 0)).
  split; [ discriminate | left; lia ].
Defined.

Lemma evaluate_baselines_layout_witness :
  exists rows,
    evaluate_baselines np_default_rng z_uniform np_mean_z np_std_z
                       rint_mean_z [sphere; absolute] 2 3 2
    = Some ("baselines_2D_data.csv"%string, rows) /\
    map (firstn 3) (tl rows)
    = [[CellStr "GD"; CellStr "Sphere"; CellInt 2];
       [CellStr "NAG"; CellStr "Sphere"; CellInt 2];
       [CellStr "GD"; CellStr "F1"; CellInt 2];
       [CellStr "NAG"; CellStr "F1"; CellInt 2]] /\
    length rows = 5%nat.
Proof.
  eexists. split; [ vm_compute; reflexivity | ].
  match goal with
  | |- map (firstn 3) (tl ?rows) = _ /\ _ =>
      assert (H : evaluate_baselines np_default_rng z_uniform np_mean_z
                                     np_std_z rint_mean_z
                                     [sphere; absolute] 2 3 2
                  = Some ("baselines_2D_data.csv"%string, rows))
        by (vm_compute; reflexivity);
      destruct (evaluate_baselines_layout
                  np_default_rng z_uniform np_mean_z np_std_z rint_mean_z
                  [sphere; absolute] 2 3 2 H)
        as (_ & _ & Hmap & Hlen & _)
  end.
  split; [ exact Hmap | exact Hlen ].
Defined.

Lemma training_schedule_counts_witness :
  let '(events, finished) := train_td3_rnn_schedule 5 2 2 in
  finished = true /\
  count is_train_phase events = 10%nat /\
  count is_evaluation events = 4%nat /\
  count is_save events = 1%nat /\
  last events TrainPhase = SavePolicy.
Proof.
  exact (training_schedule_counts 5 2 (eval_interval := 2) ltac:(lia)).
Defined.

Lemma zero_eval_interval_raises_witness :
  train_td3_rnn_schedule 5 2 0
  = ([TrainPhase; TfSummaries 0; TfSummaries 1;
      TrainPhase; TfSummaries 0; TfSummaries 1], false).
Proof.
  exact (proj1 (@zero_eval_interval_raises 5 2 ltac:(lia))).
Defined.

End MoreScenario.

(** * The baselines on binary32 inputs *)

Module FloatScenario.

Import Float32.

(** C9, the claim as stated fails: [GD] on the parabola with the singular
    term, started at 1 with the learning rate 0.1 of its table entry, moves
    to -2 (the gradient at 1 is 30) and then to 4; the objective is 15, NaN
    and 240 there.  [min(NaN, 15)] is NaN, since [15 < NaN] is false, and
    [min(240, NaN)] is 240, since [NaN < 240] is false: the returned
    sequence is 15, NaN, 240.  Its entry 1 is not [<=] its entry 0, its
    entry 2 is not [<=] its entry 1 and is above its entry 0, which is the
    least of the three evaluations. *)
Lemma best_values_counterexample :
  let evals :=
    call punctured_parabola [of_Z 1]
      :: GD_evaluations punctured_parabola
           (s_lit (dict_get gd_lrs (name punctured_parabola) (1 # 100)%Q))
           [of_Z 1] (Z.to_nat 2) in
  let bs := fst (GD punctured_parabola [of_Z 1] 2) in
  evals = [of_Z 15; S754_nan; of_Z 240] /\
  bs = [of_Z 15; S754_nan; of_Z 240] /\
  SFleb (nth 1 bs S754_nan) (nth 0 bs S754_nan) = false /\
  SFleb (nth 2 bs S754_nan) (nth 1 bs S754_nan) = false /\
  SFltb (nth 0 bs S754_nan) (nth 2 bs S754_nan) = true /\
  ~ best_so_far bs evals.
Proof.
  cbn zeta.
  split; [ vm_compute; reflexivity | ]. split; [ vm_compute; reflexivity | ].
  split; [ vm_compute; reflexivity | ]. split; [ vm_compute; reflexivity | ].
  split; [ vm_compute; reflexivity | ].
  intros (_ & _ & Hmin).
  assert (Hlt : (2 < length (fst (GD punctured_parabola [of_Z 1] 2)))%nat)
    by (vm_compute; lia).
  destruct (Hmin 2%nat S754_nan Hlt) as [_ Hall].
  apply Forall_inv in Hall. vm_compute in Hall. discriminate.
Qed.

Lemma best_values_running_minimum_witness :
  no_nan (call parabola [of_Z 1]
            :: GD_evaluations parabola
                 (s_lit (dict_get gd_lrs (name parabola) (1 # 100)%Q))
                 [of_Z 1] (Z.to_nat 2)) /\
  call parabola [of_Z 1]
    :: GD_evaluations parabola
         (s_lit (dict_get gd_lrs (name parabola) (1 # 100)%Q))
         [of_Z 1] (Z.to_nat 2)
  = [of_Z 15; of_Z 60; of_Z 240] /\
  fst (GD parabola [of_Z 1] 2) = [of_Z 15; of_Z 15; of_Z 15] /\
  best_so_far (fst (GD parabola [of_Z 1] 2))
              (call parabola [of_Z 1]
                 :: GD_evaluations parabola
                      (s_lit (dict_get gd_lrs (name parabola) (1 # 100)%Q))
                      [of_Z 1] (Z.to_nat 2)) /\
  no_nan (fst (GD parabola [of_Z 1] 2)).
Proof.
  assert (Hn : no_nan (call parabola [of_Z 1]
                         :: GD_evaluations parabola
                              (s_lit (dict_get gd_lrs (name parabola)
                                               (1 # 100)%Q))
                              [of_Z 1] (Z.to_nat 2))).
  { vm_compute. repeat (constructor; [ reflexivity | ]). constructor. }
  split; [ exact Hn | ].
  split; [ vm_compute; reflexivity | ].
  split; [ vm_compute; reflexivity | ].
  exact (proj1 (best_values_running_minimum parabola [of_Z 1] 2) Hn).
Defined.

Lemma best_iteration_is_last_improvement_witness :
  no_nan (call bowl [of_Z 1]
            :: GD_evaluations bowl
                 (s_lit (dict_get gd_lrs (name bowl) (1 # 100)%Q))
                 [of_Z 1] (Z.to_nat 3)) /\
  snd (GD bowl [of_Z 1] 3) = 2 /\
  last_improvement (fst (GD bowl [of_Z 1] 3)) (snd (GD bowl [of_Z 1] 3))
                   (Z.to_nat 3).
Proof.
  assert (Hn : no_nan (call bowl [of_Z 1]
                         :: GD_evaluations bowl
                              (s_lit (dict_get gd_lrs (name bowl)
                                               (1 # 100)%Q))
                              [of_Z 1] (Z.to_nat 3))).
  { vm_compute. repeat (constructor; [ reflexivity | ]). constructor. }
  split; [ exact Hn | ]. split; [ vm_compute; reflexivity | ].
  exact (proj1 (best_iteration_is_last_improvement bowl [of_Z 1] 3) Hn).
Defined.

Lemma baseline_values_from_domain_witness :
  ieee_le (d_min (domain bowl)) (d_max (domain bowl)) /\
  fst (GD bowl [of_Z 20] 1) = [of_Z 400; of_Z 100] /\
  forall b,
    In b (fst (GD bowl [of_Z 20] 1)) ->
    b = call bowl [of_Z 20] \/
    exists x, nan_or_in_domain bowl x /\ b = call bowl x.
Proof.
  assert (Hd : ieee_le (d_min (domain bowl)) (d_max (domain bowl))).
  { repeat split. }
  split; [ exact Hd | ]. split; [ vm_compute; reflexivity | ].
  exact (proj1 (baseline_values_from_domain bowl [of_Z 20] 1 Hd)).
Defined.

End FloatScenario.
